(** * ext2_access: path resolution over an in-memory ext2 image

    A shallow embedding of [skeleton/lib/ext2_access.c].

    - The image is a byte buffer mapped at an address; every structure of the
      C code is a view at a byte offset, so pointers are addresses ([Z]) and
      field reads are loads from the buffer.  A load outside the buffer is
      undefined behaviour in C; here it is the outcome [Fault].
    - [__u32] arithmetic wraps modulo 2^32 and is written out ([wrap32]).
    - The directory scan of [get_inode_from_dir] is a [while] loop with no
      bound of its own: it takes fuel and [Timeout] is "still running".
    - [split_path] allocates with [calloc]; the heap is an explicit part of
      the state, separate from the image.
    - The [int] counters of [split_path] and [get_inode_by_path] count bytes
      of the path; they are natural numbers here (a path is far shorter than
      2^31 bytes). *)

From Stdlib Require Import ZArith Lia List Bool.
From Stdlib Require Import Strings.Byte Strings.String.
From stdpp Require Import base tactics option list.

Local Open Scope Z_scope.

(** ** Outcomes of a C computation *)

Inductive outcome (A : Type) : Type :=
| Ret (a : A)      (* returned normally *)
| Fault            (* undefined behaviour: an access outside an object *)
| Timeout.         (* the fuel ran out: the loop is still running *)
Arguments Ret {A} a.
Arguments Fault {A}.
Arguments Timeout {A}.

Definition obind {A B} (m : outcome A) (k : A -> outcome B) : outcome B :=
  match m with
  | Ret a => k a
  | Fault => Fault
  | Timeout => Timeout
  end.

Definition omap {A B} (f : A -> B) (m : outcome A) : outcome B :=
  obind m (fun a => Ret (f a)).

Declare Scope outcome_scope.
Delimit Scope outcome_scope with out.
Notation "'let*' x := m 'in' k" := (obind m (fun x => k))
  (at level 10, x name, m at level 100, k at level 200) : outcome_scope.
Local Open Scope outcome_scope.

(** ** The image: a byte buffer mapped at address [fs] *)

Definition ptr := Z.

Record image : Type := Image {
  fs : ptr;                (* the pointer [fs] every function receives *)
  image_bytes : list byte  (* the bytes at [fs], [fs + 1], ... *)
}.

#[global] Instance byte_eq_dec : EqDecision byte := Byte.byte_eq_dec.

Definition byte_val (b : byte) : Z := Z.of_N (Byte.to_N b).

(** A one-byte load, as for a [__u8] field or a [char] of a name. *)
Definition load8 (img : image) (a : ptr) : outcome Z :=
  if a <? fs img then Fault
  else match image_bytes img !! Z.to_nat (a - fs img) with
       | Some b => Ret (byte_val b)
       | None => Fault
       end.

(** Loads of [__le16] and [__le32] fields, little-endian as on disk. *)
Definition load16 (img : image) (a : ptr) : outcome Z :=
  let* b0 := load8 img a in
  let* b1 := load8 img (a + 1) in
  Ret (b0 + 256 * b1).

Definition load32 (img : image) (a : ptr) : outcome Z :=
  let* b0 := load8 img a in
  let* b1 := load8 img (a + 1) in
  let* b2 := load8 img (a + 2) in
  let* b3 := load8 img (a + 3) in
  Ret (b0 + 256 * b1 + 65536 * b2 + 16777216 * b3).

(** [__u32] arithmetic *)
Definition wrap32 (z : Z) : Z := z mod 2 ^ 32.

(** ** The headers *)

Module Ext2fs.

(** Modelled from the spec: [ext2fs.h] and [ext2_access.h] are included by the
    source but are not part of it.  The spec fixes the superblock offset
    (1024), the root inode number (2), the block size ([1024 << field]) and
    that the inode record size is read from the superblock; the remaining
    numbers are the field offsets of the ext2 on-disk structures, which the
    spec requires to be matched bit-exactly. *)
Definition SUPERBLOCK_OFFSET : Z := 1024.
Definition SUPERBLOCK_SIZE : Z := 1024.
Definition EXT2_ROOT_INO : Z := 2.

(* struct ext2_super_block *)
Definition off_s_log_block_size : Z := 24.   (* __le32 *)
Definition off_s_inode_size : Z := 88.       (* __le16 *)
(* struct ext2_group_desc *)
Definition off_bg_inode_table : Z := 8.      (* __le32 *)
(* struct ext2_inode *)
Definition off_i_block : Z := 40.            (* __le32 i_block[15] *)
(* struct ext2_dir_entry_2 *)
Definition off_inode : Z := 0.               (* __le32 *)
Definition off_rec_len : Z := 4.             (* __le16 *)
Definition off_name_len : Z := 6.            (* __u8 *)
Definition off_file_type : Z := 7.           (* __u8 *)
Definition off_name : Z := 8.                (* char name[] *)

(** Modelled from the spec: the macro [EXT2_BLOCK_SIZE(s)] of the missing
    header, "reads the log2-size field from the superblock and computes
    [1024 << field]"; the value is returned as a [__u32]. *)
Definition EXT2_BLOCK_SIZE (img : image) (s : ptr) : outcome Z :=
  let* field := load32 img (s + off_s_log_block_size) in
  Ret (wrap32 (Z.shiftl 1024 field)).

(** Modelled from the spec: the macro [EXT2_INODE_SIZE(s)] of the missing
    header, "inode_record_size is read from the superblock". *)
Definition EXT2_INODE_SIZE (img : image) (s : ptr) : outcome Z :=
  load16 img (s + off_s_inode_size).

End Ext2fs.
Import Ext2fs.

(** ** Accessors for the basic components of ext2 *)

(** [return fs + SUPERBLOCK_OFFSET;] *)
Definition get_super_block (img : image) : ptr :=
  fs img + SUPERBLOCK_OFFSET.

Definition get_block_size (img : image) : outcome Z :=
  let superBlock := get_super_block img in
  EXT2_BLOCK_SIZE img superBlock.

(** [return fs + (block_num * get_block_size(fs));] with a [__u32] product *)
Definition get_block (img : image) (block_num : Z) : outcome ptr :=
  let* block_size := get_block_size img in
  Ret (fs img + wrap32 (block_num * block_size)).

(** [return fs + SUPERBLOCK_OFFSET + SUPERBLOCK_SIZE;] *)
Definition get_block_group (img : image) (block_group_num : Z) : ptr :=
  fs img + SUPERBLOCK_OFFSET + SUPERBLOCK_SIZE.

Definition get_inode (img : image) (inode_num : Z) : outcome ptr :=
  let superBlock := get_super_block img in
  let* inodeTableIndex :=
    load32 img (get_block_group img 0 + off_bg_inode_table) in
  let* tableBlock := get_block img inodeTableIndex in
  let* inode_size := EXT2_INODE_SIZE img superBlock in
  Ret (tableBlock + wrap32 (wrap32 (inode_num - 1) * inode_size)).

Definition get_root_dir (img : image) : outcome ptr :=
  get_inode img EXT2_ROOT_INO.

(** ** C strings

    A [char *] is modelled by the bytes from the pointer to the end of the
    string's object; the terminating NUL is left implicit at the end of the
    list, and a NUL inside the list ends the string there, as in C.  Two
    pointers into the same string are two suffixes of the same list, and
    their difference is the difference of the lengths. *)

Definition NUL : byte := x00.
Definition SLASH : byte := x2f.

Fixpoint strlen (s : list byte) : nat :=
  match s with
  | [] => O
  | c :: s' => if Byte.eqb c NUL then O else S (strlen s')
  end.

(** [strchr(s, c)]: the suffix at the first [c], [None] for [NULL]. *)
Fixpoint strchr (s : list byte) (c : byte) : option (list byte) :=
  match s with
  | [] => if Byte.eqb c NUL then Some [] else None
  | x :: s' =>
      if Byte.eqb x c then Some s
      else if Byte.eqb x NUL then None
      else strchr s' c
  end.

(** [s + 1], to be dereferenced: past the terminator there is nothing. *)
Definition ptr_next (s : list byte) : outcome (list byte) :=
  match s with
  | [] => Fault
  | _ :: s' => Ret s'
  end.

(** [s[i]] for [i <= strlen(s)] *)
Definition char_at (s : list byte) (i : nat) : byte := nth i s NUL.

(** The [n] bytes [strncpy(dst, src, n)] writes: the string, then NULs. *)
Fixpoint strncpy_bytes (src : list byte) (n : nat) : list byte :=
  match n with
  | O => []
  | S n' =>
      match src with
      | [] => NUL :: strncpy_bytes [] n'
      | c :: src' =>
          if Byte.eqb c NUL then NUL :: strncpy_bytes [] n'
          else c :: strncpy_bytes src' n'
      end
  end.

(** [strncmp(s1, s2, n)] where [s2] points into the image. *)
Fixpoint strncmp (img : image) (s1 : list byte) (s2 : ptr) (n : nat)
  : outcome Z :=
  match n with
  | O => Ret 0
  | S n' =>
      let c1 := byte_val (char_at s1 0) in
      let* c2 := load8 img s2 in
      if negb (c1 =? c2) then Ret (c1 - c2)
      else if c1 =? 0 then Ret 0
      else strncmp img (tl s1) (s2 + 1) n'
  end.

(** ** The heap and the state *)

Inductive object : Type :=
| Chars (bs : list byte)          (* calloc(n, sizeof(char)) *)
| Ptrs (ps : list (option nat)).  (* calloc(n, sizeof(char * )); None is NULL *)

Record state : Type := State {
  st_image : image;
  st_heap : list object
}.

Definition M (A : Type) : Type := state -> outcome (A * state).

Definition mret {A} (a : A) : M A := fun s => Ret (a, s).

Definition mbind {A B} (m : M A) (k : A -> M B) : M B :=
  fun s => let* r := m s in k (fst r) (snd r).

Notation "'let!' x := m 'in' k" := (mbind m (fun x => k))
  (at level 10, x name, m at level 100, k at level 200) : outcome_scope.
Notation "'do!' m 'in' k" := (mbind m (fun _ => k))
  (at level 10, m at level 100, k at level 200) : outcome_scope.

(** A function that only reads the image. *)
Definition reading {A} (f : image -> outcome A) : M A :=
  fun s => let* a := f (st_image s) in Ret (a, s).

(** A computation that touches no memory. *)
Definition lift {A} (m : outcome A) : M A := reading (fun _ => m).

Definition alloc (o : object) : M nat :=
  fun s => Ret (length (st_heap s),
                State (st_image s) (st_heap s ++ [o])).

Definition calloc_chars (n : nat) : M nat := alloc (Chars (replicate n NUL)).
Definition calloc_ptrs (n : nat) : M nat := alloc (Ptrs (replicate n None)).

(** [parts[i] = p] *)
Definition store_ptr (parts i p : nat) : M unit :=
  fun s =>
    match st_heap s !! parts with
    | Some (Ptrs ps) =>
        if decide (i < length ps)%nat
        then Ret (tt, State (st_image s)
                        (<[parts := Ptrs (<[i := Some p]> ps)]> (st_heap s)))
        else Fault
    | _ => Fault
    end.

(** [strncpy(p, src, n)] *)
Definition strncpy (p : nat) (src : list byte) (n : nat) : M unit :=
  fun s =>
    match st_heap s !! p with
    | Some (Chars bs) =>
        if decide (n <= length bs)%nat
        then Ret (tt, State (st_image s)
                        (<[p := Chars (strncpy_bytes src n ++ drop n bs)]>
                           (st_heap s)))
        else Fault
    | _ => Fault
    end.

(** [parts[i]] as a string: the bytes of the buffer it points to. *)
Definition load_string (parts i : nat) : M (list byte) :=
  fun s =>
    match st_heap s !! parts with
    | Some (Ptrs ps) =>
        match ps !! i with
        | Some (Some p) =>
            match st_heap s !! p with
            | Some (Chars bs) => Ret (bs, s)
            | _ => Fault
            end
        | _ => Fault
        end
    | _ => Fault
    end.

(** ** High-level code for accessing filesystem components by path *)

(** The first loop of [split_path], entered with [slash != NULL]:
    [for (slash = path; slash != NULL; slash = strchr(slash + 1, '/'))
       num_slashes++;] *)
Fixpoint count_pieces (fuel : nat) (slash : list byte) (num_slashes : nat)
  : outcome nat :=
  match fuel with
  | O => Timeout
  | S fuel' =>
      let num_slashes := S num_slashes in
      let* next := ptr_next slash in
      match strchr next SLASH with
      | None => Ret num_slashes
      | Some slash' => count_pieces fuel' slash' num_slashes
      end
  end.

(** The second loop: one piece per slash after the first byte. *)
Fixpoint copy_pieces (fuel : nat) (parts : nat) (slash : option (list byte))
    (piece_start : list byte) (i : nat) : M (list byte * nat) :=
  match slash with
  | None => mret (piece_start, i)
  | Some sl =>
      match fuel with
      | O => lift Timeout
      | S fuel' =>
          let part_len := (length piece_start - length sl)%nat in
          let! p := calloc_chars (part_len + 1) in
          do! store_ptr parts i p in
          do! strncpy p piece_start part_len in
          let! next := lift (ptr_next sl) in
          copy_pieces fuel' parts (strchr next SLASH) next (S i)
      end
  end.

(** Both loops advance [slash] strictly, so the length of the path (plus
    one) is fuel enough: see [count_pieces_spec] and [split_path_spec]. *)
Definition split_path (path : list byte) : M nat :=
  let! num_slashes := lift (count_pieces (S (length path)) path 0) in
  let! parts := calloc_ptrs num_slashes in
  let! first := lift (ptr_next path) in
  let! r := copy_pieces (S (length path)) parts (strchr first SLASH) first 0 in
  let piece_start := fst r in
  let i := snd r in
  (* Get the last piece. *)
  let! p := calloc_chars (strlen piece_start + 1) in
  do! store_ptr parts i p in
  do! strncpy p piece_start (strlen piece_start) in
  mret parts.

(** The [while] loop of [get_inode_from_dir]. *)
Fixpoint scan_dir (fuel : nat) (img : image) (name : list byte)
    (currentBlock : ptr) : outcome Z :=
  match fuel with
  | O => Timeout
  | S fuel' =>
      let* file_type := load8 img (currentBlock + off_file_type) in
      if file_type =? 0 then Ret 0   (* file not found *)
      else
        let entry := currentBlock in
        let* name_len := load8 img (entry + off_name_len) in
        let* c := strncmp img name (entry + off_name) (Z.to_nat name_len) in
        if c =? 0 then load32 img (entry + off_inode)
        else
          let* rec_len := load16 img (entry + off_rec_len) in
          scan_dir fuel' img name (currentBlock + rec_len)
  end.

Definition get_inode_from_dir (fuel : nat) (img : image) (dir : ptr)
    (name : list byte) : outcome Z :=
  let* b := load32 img (dir + off_i_block) in   (* dir->i_block[0] *)
  let* directoryBlock := get_block img b in
  scan_dir fuel img name directoryBlock.

(** [for (i = 0; i < pathLength; i++) if (path[i] == '/') levels++;]
    with [n] iterations left. *)
Fixpoint count_levels (path : list byte) (n i levels : nat) : nat :=
  match n with
  | O => levels
  | S n' =>
      count_levels path n' (S i)
        (if Byte.eqb (char_at path i) SLASH then S levels else levels)
  end.

(** [for (i = 0; i < levels; i++) ...] with [n] iterations left. *)
Fixpoint walk_levels (fuel : nat) (n i : nat) (pathComponents : nat)
    (folders : ptr) (inodeNo : Z) : M Z :=
  match n with
  | O => mret inodeNo
  | S n' =>
      let! name := load_string pathComponents i in
      let! inodeNo := reading (fun img => get_inode_from_dir fuel img folders name) in
      if negb (inodeNo =? 0) then
        let! folders := reading (fun img => get_inode img inodeNo) in
        walk_levels fuel n' (S i) pathComponents folders inodeNo
      else mret 0
  end.

(** [inodeNo] is uninitialised before the loop; the loop is entered with
    [levels >= 1], so the value given to it here is never returned. *)
Definition get_inode_by_path (fuel : nat) (path : list byte) : M Z :=
  let pathLength := strlen path in
  let levels := count_levels path pathLength 0 0 in
  if (levels =? 0)%nat then mret 0
  else
    let! pathComponents := split_path path in
    let! folders := reading get_root_dir in
    walk_levels fuel levels 0 pathComponents folders 0.

(** Running a call from the image alone, on an empty heap. *)
Definition run {A} (m : M A) (img : image) : outcome A :=
  omap fst (m (State img [])).


(** ** What the image holds: directories as lists of records *)

Record dirent : Type := Dirent {
  d_inode : Z;
  d_rec_len : Z;
  d_file_type : Z;
  d_name : list byte    (* exactly [name_len] bytes *)
}.

(** The bytes [bs] are in the image at address [a]. *)
Fixpoint name_at (img : image) (a : ptr) (bs : list byte) : Prop :=
  match bs with
  | [] => True
  | b :: bs' => load8 img a = Ret (byte_val b) /\ name_at img (a + 1) bs'
  end.

(** The block at [p] holds the records [es], each found from the previous
    one by its [rec_len], and then a record with [file_type = 0]. *)
Fixpoint dir_block (img : image) (p : ptr) (es : list dirent) : Prop :=
  match es with
  | [] => load8 img (p + off_file_type) = Ret 0
  | e :: es' =>
      load8 img (p + off_file_type) = Ret (d_file_type e) /\
      d_file_type e <> 0 /\
      load32 img (p + off_inode) = Ret (d_inode e) /\
      load16 img (p + off_rec_len) = Ret (d_rec_len e) /\
      load8 img (p + off_name_len) = Ret (Z.of_nat (length (d_name e))) /\
      name_at img (p + off_name) (d_name e) /\
      dir_block img (p + d_rec_len e) es'
  end.

(** The first data block of the inode at [dir] holds the records [es]. *)
Definition directory (img : image) (dir : ptr) (es : list dirent) : Prop :=
  exists b p,
    load32 img (dir + off_i_block) = Ret b /\
    get_block img b = Ret p /\
    dir_block img p es.

(** The string held by a buffer: its bytes before the first NUL. *)
Definition cstring (s : list byte) : list byte := take (strlen s) s.

(** An ext2 name: not empty, no NUL and no slash in it. *)
Definition valid_name (nm : list byte) : Prop :=
  nm <> [] /\ (NUL ∉ nm) /\ (SLASH ∉ nm).

(** [strncmp] on two byte lists, each read like a C string. *)
Fixpoint strncmp_bytes (s1 s2 : list byte) (n : nat) : Z :=
  match n with
  | O => 0
  | S n' =>
      let c1 := byte_val (char_at s1 0) in
      let c2 := byte_val (char_at s2 0) in
      if negb (c1 =? c2) then c1 - c2
      else if c1 =? 0 then 0
      else strncmp_bytes (tl s1) (tl s2) n'
  end.

(** The test of [get_inode_from_dir] on one record. *)
Definition matches (name : list byte) (e : dirent) : bool :=
  strncmp_bytes name (d_name e) (length (d_name e)) =? 0.

(** What the scan returns on the records [es]: the inode number of the
    first record that passes the test, 0 at the end. *)
Fixpoint first_match (name : list byte) (es : list dirent) : Z :=
  match es with
  | [] => 0
  | e :: es' => if matches name e then d_inode e else first_match name es'
  end.

(** The inode number of the record named exactly [name], 0 if there is none:
    the directory lookup of the spec ("byte-exact comparison only"). *)
Fixpoint lookup_entry (name : list byte) (es : list dirent) : Z :=
  match es with
  | [] => 0
  | e :: es' =>
      if decide (d_name e = cstring name) then d_inode e
      else lookup_entry name es'
  end.

(** ** What [split_path] returns: the segments between separators *)

(** Splitting the string in [s] on ['/']. *)
Fixpoint segments (s : list byte) : list (list byte) :=
  match s with
  | [] => [[]]
  | c :: s' =>
      if Byte.eqb c NUL then [[]]
      else if Byte.eqb c SLASH then [] :: segments s'
      else match segments s' with
           | seg :: segs => (c :: seg) :: segs
           | [] => [[c]]
           end
  end.

(** The strings of the array [parts] in the heap [h], in order. *)
Definition read_parts (h : list object) (parts : nat)
  : option (list (list byte)) :=
  match h !! parts with
  | Some (Ptrs ps) =>
      mapM (fun p => match p with
                     | Some q => match h !! q with
                                 | Some (Chars bs) => Some (cstring bs)
                                 | _ => None
                                 end
                     | None => None
                     end) ps
  | _ => None
  end.

(** ** The traversal of the spec *)

(** Steps 3 to 5 of the resolver, with the directory reader [lookup] a
    parameter: look each component up in the current directory, fail with 0
    at the first one not found, else go on from [inode(image, found)]. *)
Fixpoint walk (img : image) (lookup : ptr -> list byte -> outcome Z)
    (names : list (list byte)) (folders : ptr) (inodeNo : Z) : outcome Z :=
  match names with
  | [] => Ret inodeNo
  | name :: rest =>
      let* found := lookup folders name in
      if found =? 0 then Ret 0
      else
        let* folders' := get_inode img found in
        walk img lookup rest folders' found
  end.

(** The same traversal over directories that are well-formed chains of
    records, with the lookup [find] on their records. *)
Inductive descends (img : image) (find : list byte -> list dirent -> Z)
  : ptr -> list (list byte) -> Z -> Z -> Prop :=
| descends_done folders inodeNo :
    descends img find folders [] inodeNo inodeNo
| descends_miss folders inodeNo name rest es :
    directory img folders es ->
    find name es = 0 ->
    descends img find folders (name :: rest) inodeNo 0
| descends_step folders inodeNo name rest es folders' r :
    directory img folders es ->
    find name es <> 0 ->
    get_inode img (find name es) = Ret folders' ->
    descends img find folders' rest (find name es) r ->
    descends img find folders (name :: rest) inodeNo r.

(** No record of [es] has a NUL byte in its name or a name that is a proper
    prefix of [name]: the condition under which the test of
    [get_inode_from_dir] and the exact comparison of the spec pick the same
    record. *)
Definition unshadowed (name : list byte) (es : list dirent) : Prop :=
  Forall (fun e => (NUL ∉ d_name e) /\
                   (d_name e `prefix_of` cstring name ->
                    d_name e = cstring name)) es.

(** The traversal of the spec by exact lookup, through directories in which
    the looked-up component is not shadowed. *)
Inductive resolves (img : image) : ptr -> list (list byte) -> Z -> Z -> Prop :=
| resolves_done folders inodeNo :
    resolves img folders [] inodeNo inodeNo
| resolves_miss folders inodeNo name rest es :
    directory img folders es ->
    unshadowed name es ->
    lookup_entry name es = 0 ->
    resolves img folders (name :: rest) inodeNo 0
| resolves_step folders inodeNo name rest es folders' r :
    directory img folders es ->
    unshadowed name es ->
    lookup_entry name es <> 0 ->
    get_inode img (lookup_entry name es) = Ret folders' ->
    resolves img folders' rest (lookup_entry name es) r ->
    resolves img folders (name :: rest) inodeNo r.

(** The records [es] are in the image from [p] on, each found from the
    previous one by its [rec_len], and the last one leads to [q].  Nothing
    is said of what is at [q], nor of where [q] is. *)
Fixpoint records_at (img : image) (p : ptr) (es : list dirent) (q : ptr)
  : Prop :=
  match es with
  | [] => p = q
  | e :: es' =>
      load8 img (p + off_file_type) = Ret (d_file_type e) /\
      d_file_type e <> 0 /\
      load32 img (p + off_inode) = Ret (d_inode e) /\
      load16 img (p + off_rec_len) = Ret (d_rec_len e) /\
      load8 img (p + off_name_len) = Ret (Z.of_nat (length (d_name e))) /\
      name_at img (p + off_name) (d_name e) /\
      records_at img (p + d_rec_len e) es' q
  end.

(** The pieces of a path put together again, a ['/'] between two pieces. *)
Fixpoint join (segs : list (list byte)) : list byte :=
  match segs with
  | [] => []
  | seg :: rest =>
      match rest with
      | [] => seg
      | _ :: _ => seg ++ SLASH :: join rest
      end
  end.

(** ** The heap [split_path] builds *)

(** The buffer of a piece: its bytes and the NUL [calloc] left after them. *)
Definition buffer_of (seg : list byte) : object := Chars (seg ++ [NUL]).

(** The heap [h0] followed by a [parts] array of [total] slots, the first
    ones pointing to the buffers [bufs] allocated after it. *)
Definition with_parts (h0 : list object) (bufs : list object) (total : nat)
  : list object :=
  h0 ++ Ptrs ((Some <$> seq (S (length h0)) (length bufs))
              ++ replicate (total - length bufs) None) :: bufs.

(** The heap after [split_path] returned the pieces [segs]. *)
Definition split_heap (h0 : list object) (segs : list (list byte))
  : list object :=
  with_parts h0 (buffer_of <$> segs) (length segs).

(** The number of ['/'] in a list of bytes. *)
Definition count_slash (s : list byte) : nat :=
  length (filter (fun c => c = SLASH) s).

(** ** Fixture images

    Small images in the layout the accessors expect, to run the code on:
    1 KiB blocks, the superblock in block 1, the group descriptor in block 2,
    the inode table (128-byte records) from block 3, the data of the root
    directory (inode 2) in block 5 and the data of inode 12 in block 6. *)

Module Fixture.

Definition byte_of_Z (z : Z) : byte :=
  match Byte.of_N (Z.to_N (z mod 256)) with
  | Some b => b
  | None => NUL
  end.

Definition le16 (z : Z) : list byte :=
  [byte_of_Z z; byte_of_Z (z / 256)].

Definition le32 (z : Z) : list byte :=
  [byte_of_Z z; byte_of_Z (z / 256); byte_of_Z (z / 65536);
   byte_of_Z (z / 16777216)].

Definition cstr (s : string) : list byte := list_byte_of_string s.

(** Overwrite [buf] at offset [off] with [bs]. *)
Definition put (off : Z) (bs buf : list byte) : list byte :=
  take (Z.to_nat off) buf ++ bs ++ drop (Z.to_nat off + length bs) buf.

Definition FT_REG : Z := 1.
Definition FT_DIR : Z := 2.

(** A record as mkfs lays it out: [rec_len] is 8 plus the length of the
    name rounded up to a multiple of 4. *)
Definition entry (ino file_type : Z) (name : string) : dirent :=
  let n := Z.of_nat (length (cstr name)) in
  Dirent ino (8 + 4 * ((n + 3) / 4)) file_type (cstr name).

(** The bytes of a record: the fields, the name, NULs up to [rec_len]. *)
Definition encode (e : dirent) : list byte :=
  le32 (d_inode e) ++ le16 (d_rec_len e)
    ++ [byte_of_Z (Z.of_nat (length (d_name e))); byte_of_Z (d_file_type e)]
    ++ d_name e
    ++ replicate (Z.to_nat (d_rec_len e - 8) - length (d_name e)) NUL.

(** The data of a directory: its records, then a record with
    [file_type = 0]. *)
Definition dir_data (es : list dirent) : list byte :=
  concat (encode <$> es) ++ replicate 8 NUL.

(** An image mapped at address 4096 whose root directory holds [root_es]
    and whose inode 12 is a directory holding [sub_es]. *)
Definition make_image (root_es sub_es : list dirent) : image :=
  let buf := replicate (Z.to_nat 7168) NUL in
  let buf := put (1024 + 24) (le32 0) buf in            (* s_log_block_size *)
  let buf := put (1024 + 88) (le16 128) buf in          (* s_inode_size *)
  let buf := put (2048 + 8) (le32 3) buf in             (* bg_inode_table *)
  let buf := put (3072 + 1 * 128 + 40) (le32 5) buf in  (* inode 2, i_block[0] *)
  let buf := put (3072 + 11 * 128 + 40) (le32 6) buf in (* inode 12, i_block[0] *)
  let buf := put 5120 (dir_data root_es) buf in
  let buf := put 6144 (dir_data sub_es) buf in
  Image 4096 buf.

(** Where [make_image] puts things. *)
Definition root_inode : ptr := 4096 + 3072 + 1 * 128.
Definition sub_inode : ptr := 4096 + 3072 + 11 * 128.

(** root -> files/ -> hello.txt *)
Definition hello_root : list dirent :=
  [entry 2 FT_DIR "."; entry 2 FT_DIR ".."; entry 12 FT_DIR "files"].
Definition hello_files : list dirent :=
  [entry 12 FT_DIR "."; entry 2 FT_DIR ".."; entry 13 FT_REG "hello.txt"].
Definition hello_image : image := make_image hello_root hello_files.

(** A root directory holding [a] (inode 12) and then [ab] (inode 13). *)
Definition prefix_root : list dirent :=
  [entry 2 FT_DIR "."; entry 2 FT_DIR ".."; entry 12 FT_REG "a";
   entry 13 FT_REG "ab"].
Definition prefix_image : image := make_image prefix_root [].

(** A root directory whose third record has an empty name. *)
Definition empty_name_root : list dirent :=
  [entry 2 FT_DIR "."; entry 2 FT_DIR ".."; entry 12 FT_REG EmptyString].
Definition empty_name_image : image := make_image empty_name_root [].


(** A root directory whose first record has [rec_len = 0]. *)
Definition stuck_image : image :=
  make_image [Dirent 2 0 FT_DIR (cstr ".")] [].

End Fixture.

(** Case analysis on a byte comparison, with the (in)equality as a fact. *)
Ltac byte_eq a b :=
  let E := fresh "E" in
  destruct (Byte.eqb a b) eqn:E;
  [apply Byte.byte_dec_bl in E | apply Byte.eqb_false in E].

(** Checking a fixture against the records it was built from. *)
Ltac check_directory b p :=
  exists b, p; vm_compute;
  repeat split; try reflexivity; try discriminate.

Ltac check_names :=
  repeat (apply Forall_cons; split); try (by apply Forall_nil);
  (split; [discriminate |
   split; intros Hin; apply list_elem_of_In in Hin; vm_compute in Hin;
   intuition discriminate]).

Ltac check_unshadowed :=
  repeat (apply Forall_cons; split); try (by apply Forall_nil);
  (split;
   [intros Hin; apply list_elem_of_In in Hin; vm_compute in Hin;
    intuition discriminate
   | intros [k Hk]; first [reflexivity | vm_compute in Hk; discriminate]]).

(** Checking that no record of a fixture has a name the query begins with. *)
Ltac check_no_prefix :=
  repeat (apply Forall_cons; split); try (by apply Forall_nil);
  (split;
   [intros Hin; apply list_elem_of_In in Hin; vm_compute in Hin;
    intuition discriminate
   | intros [k Hk]; vm_compute in Hk; discriminate]).

Ltac check_records :=
  vm_compute; repeat split; try reflexivity; try discriminate.

Import Fixture.

(** ** Bytes and C strings *)

Lemma byte_eqb_true (a b : byte) : Byte.eqb a b = true <-> a = b.
Proof.
  split; [apply Byte.byte_dec_bl | apply Byte.byte_dec_lb].
Qed.

Lemma byte_eqb_false (a b : byte) : Byte.eqb a b = false <-> a <> b.
Proof.
  split; [apply Byte.eqb_false |].
  intros Hne. destruct (Byte.eqb a b) eqn:E; [| reflexivity].
  apply byte_eqb_true in E. contradiction.
Qed.

Lemma byte_val_range (b : byte) : 0 <= byte_val b < 256.
Proof.
  unfold byte_val. pose proof (Byte.to_N_bounded b). lia.
Qed.

Lemma byte_val_inj (a b : byte) : byte_val a = byte_val b -> a = b.
Proof.
  unfold byte_val. intros H. apply N2Z.inj in H.
  pose proof (Byte.of_to_N a) as Ha. pose proof (Byte.of_to_N b) as Hb.
  rewrite H in Ha. congruence.
Qed.

Lemma byte_val_NUL (b : byte) : byte_val b = 0 <-> b = NUL.
Proof.
  split; [| intros ->; reflexivity].
  intros H. apply byte_val_inj. rewrite H. reflexivity.
Qed.

Lemma strlen_le (s : list byte) : (strlen s <= length s)%nat.
Proof.
  induction s as [| c s IH]; simpl; [lia |].
  destruct (Byte.eqb c NUL); simpl; lia.
Qed.

Lemma cstring_nil : cstring [] = [].
Proof. reflexivity. Qed.

Lemma cstring_cons (c : byte) (s : list byte) :
  cstring (c :: s) = if Byte.eqb c NUL then [] else c :: cstring s.
Proof.
  unfold cstring. simpl. destruct (Byte.eqb c NUL); reflexivity.
Qed.

Lemma cstring_no_NUL (s : list byte) : NUL ∉ cstring s.
Proof.
  induction s as [| c s IH]; [rewrite cstring_nil; apply not_elem_of_nil |].
  rewrite cstring_cons. byte_eq c NUL; [apply not_elem_of_nil |].
  rewrite not_elem_of_cons. split; [congruence | exact IH].
Qed.

Lemma cstring_idemp (s : list byte) : cstring (cstring s) = cstring s.
Proof.
  induction s as [| c s IH]; [reflexivity |].
  rewrite cstring_cons. byte_eq c NUL; [reflexivity |].
  rewrite cstring_cons. apply byte_eqb_false in E. rewrite E. by rewrite IH.
Qed.

Lemma cstring_app_NUL (s t : list byte) :
  NUL ∉ s -> cstring (s ++ NUL :: t) = s.
Proof.
  induction s as [| c s IH]; intros Hs; [reflexivity |].
  apply not_elem_of_cons in Hs as [Hc Hs].
  simpl. rewrite cstring_cons.
  assert (Byte.eqb c NUL = false) as -> by (apply byte_eqb_false; congruence).
  by rewrite IH.
Qed.

Lemma strncpy_bytes_nil (n : nat) : strncpy_bytes [] n = replicate n NUL.
Proof. induction n as [| n IH]; simpl; [reflexivity | by rewrite IH]. Qed.

Lemma strncpy_bytes_strlen (s : list byte) :
  strncpy_bytes s (strlen s) = cstring s.
Proof.
  induction s as [| c s IH]; [reflexivity |].
  rewrite cstring_cons. simpl.
  destruct (Byte.eqb c NUL) eqn:E; simpl; [reflexivity |].
  rewrite E. by rewrite IH.
Qed.

Lemma strncpy_bytes_prefix (pre s : list byte) :
  NUL ∉ pre -> strncpy_bytes (pre ++ s) (length pre) = pre.
Proof.
  induction pre as [| c pre IH]; intros Hp; [reflexivity |].
  apply not_elem_of_cons in Hp as [Hc Hp]. simpl.
  assert (Byte.eqb c NUL = false) as -> by (apply byte_eqb_false; congruence).
  by rewrite IH.
Qed.

Lemma length_strncpy_bytes (s : list byte) (n : nat) :
  length (strncpy_bytes s n) = n.
Proof.
  revert s. induction n as [| n IH]; intros s; [reflexivity |].
  simpl. destruct s as [| c s]; simpl; [by rewrite IH |].
  destruct (Byte.eqb c NUL); simpl; by rewrite IH.
Qed.

Lemma segments_nonempty (s : list byte) : segments s <> [].
Proof.
  destruct s as [| c s]; simpl; [discriminate |].
  destruct (Byte.eqb c NUL); [discriminate |].
  destruct (Byte.eqb c SLASH); [discriminate |].
  destruct (segments s); discriminate.
Qed.

(** [strchr] finds the end of the first segment. *)
Lemma strchr_slash_Some (s slash : list byte) :
  strchr s SLASH = Some slash ->
  exists pre rest,
    s = pre ++ SLASH :: rest /\ slash = SLASH :: rest /\
    (NUL ∉ pre) /\ (SLASH ∉ pre) /\
    segments s = pre :: segments rest.
Proof.
  revert slash. induction s as [| c s IH]; intros slash; simpl; [discriminate |].
  byte_eq c SLASH.
  - intros [= <-]. subst c. exists [], s.
    repeat split; try apply not_elem_of_nil.
  - byte_eq c NUL; [discriminate |].
    intros Hs. destruct (IH _ Hs) as (pre & rest & -> & -> & H0 & H1 & Hseg).
    exists (c :: pre), rest. rewrite Hseg.
    repeat split; rewrite not_elem_of_cons; split; congruence.
Qed.

Lemma strchr_slash_None (s : list byte) :
  strchr s SLASH = None -> segments s = [cstring s].
Proof.
  induction s as [| c s IH]; simpl; [reflexivity |].
  rewrite cstring_cons.
  byte_eq c SLASH; [discriminate |].
  byte_eq c NUL; [reflexivity |].
  intros Hs. by rewrite (IH Hs).
Qed.

Lemma segments_cstring (s : list byte) : segments (cstring s) = segments s.
Proof.
  induction s as [| c s IH]; [reflexivity |].
  rewrite cstring_cons. simpl.
  destruct (Byte.eqb c NUL) eqn:E; [reflexivity |].
  simpl. rewrite E. by rewrite IH.
Qed.

(** ** [split_path] *)

Lemma mbind_Ret {A B} (m : M A) (k : A -> M B) (s s' : state) (a : A) :
  m s = Ret (a, s') -> mbind m k s = k a s'.
Proof. unfold mbind. intros ->. reflexivity. Qed.

Lemma lift_Ret {A B} (a : A) (k : A -> M B) (s : state) :
  mbind (lift (Ret a)) k s = k a s.
Proof. reflexivity. Qed.

Lemma count_pieces_spec (n : nat) :
  forall (s : list byte) (x : byte) (fuel num : nat),
    (length s <= n)%nat -> (n < fuel)%nat ->
    count_pieces fuel (x :: s) num = Ret (num + length (segments s))%nat.
Proof.
  induction n as [| n IH]; intros s x fuel num Hlen Hfuel;
    (destruct fuel as [| fuel]; [lia |]); simpl.
  - destruct s; [| simpl in Hlen; lia]. simpl. f_equal. lia.
  - destruct (strchr s SLASH) as [slash |] eqn:Hs.
    + destruct (strchr_slash_Some _ _ Hs) as (pre & rest & -> & -> & _ & _ & ->).
      rewrite length_app in Hlen. simpl in Hlen.
      rewrite IH by lia. simpl. f_equal. lia.
    + rewrite (strchr_slash_None _ Hs). simpl. f_equal. lia.
Qed.

Lemma heap_push (h0 bufs : list object) (arr : list (option nat)) (o : object) :
  (h0 ++ Ptrs arr :: bufs) ++ [o] = h0 ++ Ptrs arr :: (bufs ++ [o]).
Proof. by rewrite <- app_assoc. Qed.

Lemma heap_lookup_parts (h0 bufs : list object) (arr : list (option nat)) :
  (h0 ++ Ptrs arr :: bufs) !! length h0 = Some (Ptrs arr).
Proof. by apply list_lookup_middle. Qed.

Lemma heap_insert_parts (h0 bufs : list object) (o o' : object) :
  <[length h0 := o']> (h0 ++ o :: bufs) = h0 ++ o' :: bufs.
Proof.
  rewrite insert_app_r_alt by lia. by rewrite Nat.sub_diag.
Qed.

Lemma heap_lookup_last (h0 bufs : list object) (a o : object) :
  (h0 ++ a :: (bufs ++ [o])) !! (length h0 + S (length bufs))%nat = Some o.
Proof.
  rewrite lookup_app_r by lia.
  replace (length h0 + S (length bufs) - length h0)%nat
    with (S (length bufs)) by lia.
  simpl. by apply list_lookup_middle.
Qed.

Lemma heap_insert_last (h0 bufs : list object) (a o o' : object) :
  <[(length h0 + S (length bufs))%nat := o']> (h0 ++ a :: (bufs ++ [o]))
  = h0 ++ a :: (bufs ++ [o']).
Proof.
  rewrite insert_app_r_alt by lia.
  replace (length h0 + S (length bufs) - length h0)%nat
    with (S (length bufs)) by lia.
  simpl. rewrite insert_app_r_alt by lia. by rewrite Nat.sub_diag.
Qed.

Lemma parts_fill (base i total : nat) :
  (i < total)%nat ->
  <[i := Some (base + i)%nat]>
    ((Some <$> seq base i) ++ replicate (total - i) (@None nat))
  = (Some <$> seq base (S i)) ++ replicate (total - S i) None.
Proof.
  intros Hlt.
  rewrite insert_app_r_alt by (rewrite length_fmap, length_seq; lia).
  rewrite length_fmap, length_seq, Nat.sub_diag.
  replace (total - i)%nat with (S (total - S i)) by lia.
  rewrite seq_S, fmap_app, <- app_assoc. reflexivity.
Qed.

Lemma store_piece {B} (img : image) (h0 bufs : list object) (total : nat)
    (src : list byte) (n : nat) (k : M B) :
  (length bufs < total)%nat ->
  mbind (calloc_chars (n + 1)) (fun p =>
    mbind (store_ptr (length h0) (length bufs) p) (fun _ =>
      mbind (strncpy p src n) (fun _ => k)))
    (State img (with_parts h0 bufs total))
  = k (State img (with_parts h0 (bufs ++ [Chars (strncpy_bytes src n ++ [NUL])])
                    total)).
Proof.
  intros Hlt. unfold with_parts.
  set (arr := (Some <$> seq (S (length h0)) (length bufs))
              ++ replicate (total - length bufs) None).
  assert (Harr : length arr = total).
  { unfold arr. rewrite length_app, length_fmap, length_seq, length_replicate.
    lia. }
  unfold mbind, calloc_chars, alloc, store_ptr, strncpy. cbn [obind fst snd st_heap st_image].
  rewrite heap_push, heap_lookup_parts.
  rewrite decide_True by lia. cbn [obind fst snd st_heap st_image].
  rewrite heap_insert_parts.
  rewrite length_app. cbn [length].
  rewrite heap_lookup_last, length_replicate.
  rewrite decide_True by lia. cbn [obind fst snd st_heap st_image].
  rewrite heap_insert_last.
  rewrite drop_replicate.
  replace (n + 1 - n)%nat with 1%nat by lia.
  replace (length h0 + S (length bufs))%nat
    with (S (length h0) + length bufs)%nat by lia.
  unfold arr. rewrite parts_fill by lia.
  rewrite length_app. cbn [length replicate].
  replace (length bufs + 1)%nat with (S (length bufs)) by lia.
  reflexivity.
Qed.

Lemma copy_pieces_spec (img : image) (h0 : list object) (total : nat) (n : nat) :
  forall (piece_start : list byte) (fuel : nat) (bufs : list object),
    (length piece_start <= n)%nat -> (n < fuel)%nat ->
    (length bufs + length (segments piece_start) <= total)%nat ->
    exists init last,
      segments piece_start = init ++ [cstring last] /\
      copy_pieces fuel (length h0) (strchr piece_start SLASH) piece_start
        (length bufs) (State img (with_parts h0 bufs total))
      = Ret ((last, (length bufs + length init)%nat),
             State img (with_parts h0 (bufs ++ (buffer_of <$> init)) total)).
Proof.
  induction n as [| n IH]; intros piece_start fuel bufs Hlen Hfuel Hroom;
    (destruct fuel as [| fuel]; [lia |]).
  - destruct piece_start; [| simpl in Hlen; lia].
    exists [], []. split; [reflexivity |]. simpl.
    unfold mret. rewrite app_nil_r. do 3 f_equal. lia.
  - destruct (strchr piece_start SLASH) as [slash |] eqn:Hs.
    + destruct (strchr_slash_Some _ _ Hs)
        as (pre & rest & -> & -> & Hnul & _ & Hseg).
      rewrite Hseg in Hroom. simpl in Hroom.
      rewrite length_app in Hlen. simpl in Hlen.
      destruct (IH rest fuel (bufs ++ [buffer_of pre]))
        as (init & last & Hrest & Hrun);
        [lia | lia | rewrite length_app; simpl; lia |].
      exists (pre :: init), last. split; [rewrite Hseg, Hrest; reflexivity |].
      cbn [copy_pieces].
      rewrite store_piece by lia.
      replace (length (pre ++ SLASH :: rest) - length (SLASH :: rest))%nat
        with (length pre) by (rewrite length_app; lia).
      rewrite strncpy_bytes_prefix by exact Hnul.
      cbn [ptr_next]. rewrite lift_Ret.
      rewrite length_app in Hrun. simpl in Hrun.
      replace (S (length bufs)) with (length bufs + 1)%nat by lia.
      fold (buffer_of pre). rewrite Hrun.
      simpl. rewrite <- app_assoc. simpl. do 3 f_equal. lia.
    + exists [], piece_start. split; [by apply strchr_slash_None |].
      simpl. unfold mret. rewrite app_nil_r. do 3 f_equal. lia.
Qed.

(** [split_path] on a non-empty path: the array it returns is allocated
    first, and holds the segments of the path after its first byte. *)
Lemma split_path_spec (img : image) (h0 : list object) (c : byte)
    (rest : list byte) :
  split_path (c :: rest) (State img h0)
  = Ret (length h0, State img (split_heap h0 (segments rest))).
Proof.
  unfold split_path.
  rewrite (count_pieces_spec (length rest)) by (simpl; lia).
  rewrite lift_Ret. simpl Nat.add.
  unfold mbind at 1. unfold calloc_ptrs, alloc. simpl.
  rewrite lift_Ret.
  destruct (copy_pieces_spec img h0 (length (segments rest)) (length rest)
              rest (S (S (length rest))) []) as (init & last & Hseg & Hrun);
    [lia | lia | simpl; lia |].
  simpl in Hrun.
  assert (Hcanon : h0 ++ [Ptrs (replicate (length (segments rest)) None)]
                   = with_parts h0 [] (length (segments rest))).
  { unfold with_parts. simpl. by rewrite Nat.sub_0_r. }
  rewrite Hcanon. erewrite mbind_Ret by exact Hrun. simpl fst. simpl snd.
  replace (length init) with (length (buffer_of <$> init))
    by apply length_fmap.
  rewrite store_piece
    by (rewrite length_fmap, Hseg, length_app; simpl; lia).
  unfold mret. rewrite strncpy_bytes_strlen.
  unfold split_heap. rewrite Hseg, fmap_app. reflexivity.
Qed.

(** ** [get_inode_by_path] and the traversal of the spec *)

Lemma cstring_app_NUL' (s t : list byte) : cstring (s ++ NUL :: t) = cstring s.
Proof.
  induction s as [| c s IH]; [reflexivity |].
  simpl. rewrite !cstring_cons. destruct (Byte.eqb c NUL); [reflexivity |].
  by rewrite IH.
Qed.

Lemma char_at_cstring (s : list byte) : char_at (cstring s) 0 = char_at s 0.
Proof.
  destruct s as [| c s]; [reflexivity |].
  rewrite cstring_cons. byte_eq c NUL; [by subst c | reflexivity].
Qed.

(** [strncmp] reads its first argument as a string. *)
Lemma strncmp_cstring (img : image) (n : nat) :
  forall (s : list byte) (a : ptr),
    strncmp img s a n = strncmp img (cstring s) a n.
Proof.
  induction n as [| n IH]; intros s a; [reflexivity |].
  cbn [strncmp]. rewrite char_at_cstring.
  destruct (load8 img a) as [c2 | |]; cbn [obind]; try reflexivity.
  destruct (negb (byte_val (char_at s 0) =? c2)); [reflexivity |].
  destruct (byte_val (char_at s 0) =? 0) eqn:E0; [reflexivity |].
  rewrite IH. rewrite (IH (tl (cstring s))). f_equal.
  destruct s as [| c s]; [reflexivity |].
  rewrite cstring_cons. byte_eq c NUL; [subst c; discriminate |].
  cbn [tl]. by rewrite cstring_idemp.
Qed.

Lemma scan_dir_cstring (img : image) (fuel : nat) :
  forall (name : list byte) (p : ptr),
    scan_dir fuel img name p = scan_dir fuel img (cstring name) p.
Proof.
  induction fuel as [| fuel IH]; intros name p; [reflexivity |].
  cbn [scan_dir].
  destruct (load8 img (p + off_file_type)) as [ft | |]; cbn [obind];
    try reflexivity.
  destruct (ft =? 0); [reflexivity |].
  destruct (load8 img (p + off_name_len)) as [nl | |]; cbn [obind];
    try reflexivity.
  rewrite <- strncmp_cstring.
  destruct (strncmp img name (p + off_name) (Z.to_nat nl)) as [c | |];
    cbn [obind]; try reflexivity.
  destruct (c =? 0); [reflexivity |].
  destruct (load16 img (p + off_rec_len)) as [rl | |]; cbn [obind];
    try reflexivity.
  apply IH.
Qed.

Lemma get_inode_from_dir_cstring (fuel : nat) (img : image) (dir : ptr)
    (name : list byte) :
  get_inode_from_dir fuel img dir name
  = get_inode_from_dir fuel img dir (cstring name).
Proof.
  unfold get_inode_from_dir.
  destruct (load32 img (dir + off_i_block)); cbn [obind]; try reflexivity.
  destruct (get_block img a); cbn [obind]; try reflexivity.
  apply scan_dir_cstring.
Qed.

Lemma load_string_split (img : image) (h0 : list object)
    (segs : list (list byte)) (i : nat) (seg : list byte) :
  segs !! i = Some seg ->
  load_string (length h0) i (State img (split_heap h0 segs))
  = Ret (seg ++ [NUL], State img (split_heap h0 segs)).
Proof.
  intros Hi. pose proof (lookup_lt_Some _ _ _ Hi) as Hlt.
  unfold load_string, split_heap, with_parts. cbn [st_heap].
  rewrite heap_lookup_parts.
  rewrite length_fmap, Nat.sub_diag. cbn [replicate]. rewrite app_nil_r.
  rewrite list_lookup_fmap, lookup_seq_lt by exact Hlt.
  cbn [fmap option_fmap option_map].
  rewrite lookup_app_r by lia.
  replace (S (length h0) + i - length h0)%nat with (S i) by lia.
  rewrite lookup_cons_ne_0 by lia. cbn [pred].
  rewrite list_lookup_fmap, Hi. reflexivity.
Qed.

Lemma walk_levels_spec (fuel : nat) (img : image) (h0 : list object)
    (segs : list (list byte)) (n : nat) :
  forall (i : nat) (folders : ptr) (inodeNo : Z),
    (i + n <= length segs)%nat ->
    walk_levels fuel n i (length h0) folders inodeNo
      (State img (split_heap h0 segs))
    = omap (fun r => (r, State img (split_heap h0 segs)))
        (walk img (get_inode_from_dir fuel img) (take n (drop i segs))
           folders inodeNo).
Proof.
  induction n as [| n IH]; intros i folders inodeNo Hle; [reflexivity |].
  destruct (lookup_lt_is_Some_2 segs i) as [seg Hseg]; [lia |].
  rewrite (drop_S _ _ _ Hseg). cbn [take walk walk_levels].
  erewrite mbind_Ret by (apply load_string_split; exact Hseg).
  unfold mbind at 1. unfold reading at 1. cbn [st_image].
  rewrite get_inode_from_dir_cstring, cstring_app_NUL', <- get_inode_from_dir_cstring.
  destruct (get_inode_from_dir fuel img folders seg) as [found | |];
    cbn [obind omap fst snd]; try reflexivity.
  destruct (found =? 0); cbn [negb]; [reflexivity |].
  unfold mbind at 1. unfold reading at 1. cbn [st_image].
  destruct (get_inode img found) as [folders' | |];
    cbn [obind omap fst snd]; try reflexivity.
  apply IH. lia.
Qed.

Lemma count_levels_spec (path : list byte) (n : nat) :
  forall (i levels : nat),
    count_levels path n i levels
    = (levels + count_slash (take n (drop i path)))%nat.
Proof.
  induction n as [| n IH]; intros i levels; cbn [count_levels].
  - unfold count_slash. simpl. lia.
  - rewrite IH. unfold char_at, count_slash.
    destruct (path !! i) as [c |] eqn:Hc.
    + rewrite (drop_S _ _ _ Hc). cbn [take].
      rewrite (nth_lookup_Some _ _ _ _ Hc). rewrite filter_cons.
      byte_eq c SLASH.
      * rewrite decide_True by exact E. simpl. lia.
      * rewrite decide_False by exact E. lia.
    + rewrite nth_lookup, Hc. cbn [default].
      change (Byte.eqb NUL SLASH) with false. cbn iota.
      apply lookup_ge_None in Hc.
      rewrite !drop_ge by lia. rewrite !take_nil. reflexivity.
Qed.

Lemma count_slash_segments (s : list byte) :
  S (count_slash (cstring s)) = length (segments s).
Proof.
  unfold count_slash.
  induction s as [| c s IH]; [reflexivity |].
  rewrite cstring_cons. simpl.
  byte_eq c NUL; [reflexivity |].
  rewrite filter_cons. byte_eq c SLASH.
  - rewrite decide_True by exact E0. simpl. by rewrite IH.
  - rewrite decide_False by exact E0. rewrite IH.
    destruct (segments s) eqn:Hs; [by apply segments_nonempty in Hs |].
    reflexivity.
Qed.

(** A path without a slash is answered 0 before anything is looked at. *)
Lemma get_inode_by_path_no_slash (fuel : nat) (path : list byte) (s : state) :
  count_slash (cstring path) = O ->
  get_inode_by_path fuel path s = Ret (0, s).
Proof.
  intros H0. unfold get_inode_by_path.
  rewrite count_levels_spec, drop_0. fold (cstring path). by rewrite H0.
Qed.

(** Any other path: its first byte is skipped, the rest is split, and as
    many components as the path has slashes are walked from the root. *)
Lemma get_inode_by_path_spec (fuel : nat) (path : list byte) (img : image)
    (h0 : list object) :
  count_slash (cstring path) <> O ->
  get_inode_by_path fuel path (State img h0)
  = omap (fun r => (r, State img (split_heap h0 (segments (tl path)))))
      (let* root := get_root_dir img in
       walk img (get_inode_from_dir fuel img)
         (take (count_slash (cstring path)) (segments (tl path))) root 0).
Proof.
  intros Hne. unfold get_inode_by_path.
  rewrite count_levels_spec, drop_0. fold (cstring path). cbn [Nat.add].
  destruct (Nat.eqb_spec (count_slash (cstring path)) 0) as [| _]; [done |].
  destruct path as [| c rest]; [done |]. cbn [tl].
  erewrite mbind_Ret by apply split_path_spec.
  unfold mbind at 1. unfold reading at 1. cbn [st_image].
  destruct (get_root_dir img) as [root | |]; cbn [obind omap fst snd];
    try reflexivity.
  rewrite walk_levels_spec, drop_0; [reflexivity |].
  rewrite cstring_cons in *. byte_eq c NUL; [done |].
  rewrite <- count_slash_segments. unfold count_slash in *.
  rewrite filter_cons. destruct (decide (c = SLASH)); simpl; lia.
Qed.

Lemma get_inode_by_path_absolute (fuel : nat) (rest : list byte) (img : image)
    (h0 : list object) :
  get_inode_by_path fuel (SLASH :: rest) (State img h0)
  = omap (fun r => (r, State img (split_heap h0 (segments rest))))
      (let* root := get_root_dir img in
       walk img (get_inode_from_dir fuel img) (segments rest) root 0).
Proof.
  assert (Hn : count_slash (cstring (SLASH :: rest)) = length (segments rest)).
  { rewrite <- count_slash_segments. reflexivity. }
  rewrite get_inode_by_path_spec by (rewrite Hn; pose proof (segments_nonempty rest); destruct (segments rest); simpl; done).
  rewrite Hn. cbn [tl]. by rewrite take_ge.
Qed.

(** ** The directory scan *)

Lemma strncmp_name_at (img : image) (n : nat) :
  forall (s bs : list byte) (a : ptr),
    name_at img a bs -> (n <= length bs)%nat ->
    strncmp img s a n = Ret (strncmp_bytes s bs n).
Proof.
  induction n as [| n IH]; intros s bs a Hat Hn; [reflexivity |].
  destruct bs as [| b bs]; [simpl in Hn; lia |].
  destruct Hat as [Hb Hat]. cbn [strncmp strncmp_bytes].
  rewrite Hb. cbn [obind]. change (char_at (b :: bs) 0) with b.
  destruct (negb (byte_val (char_at s 0) =? byte_val b)); [reflexivity |].
  destruct (byte_val (char_at s 0) =? 0); [reflexivity |].
  apply IH; [exact Hat | simpl in *; lia].
Qed.

(** On a well-formed block the scan takes at most one step per record and
    returns the inode number of the first record that passes the test. *)
Lemma scan_dir_spec (img : image) (name : list byte) (es : list dirent) :
  forall (p : ptr) (fuel : nat),
    dir_block img p es -> (length es < fuel)%nat ->
    scan_dir fuel img name p = Ret (first_match name es).
Proof.
  induction es as [| e es IH]; intros p fuel Hblock Hfuel;
    (destruct fuel as [| fuel]; [lia |]); cbn [scan_dir first_match].
  - simpl in Hblock. rewrite Hblock. reflexivity.
  - destruct Hblock as (Hft & Hne & Hino & Hrl & Hnl & Hname & Hrest).
    rewrite Hft. cbn [obind].
    destruct (Z.eqb_spec (d_file_type e) 0) as [| _]; [contradiction |].
    rewrite Hnl. cbn [obind]. rewrite Nat2Z.id.
    rewrite (strncmp_name_at _ _ _ _ _ Hname) by lia. cbn [obind].
    unfold matches.
    destruct (strncmp_bytes name (d_name e) (length (d_name e)) =? 0);
      [exact Hino |].
    rewrite Hrl. cbn [obind]. apply IH; [exact Hrest | simpl in Hfuel; lia].
Qed.

Lemma get_inode_from_dir_spec (fuel : nat) (img : image) (dir : ptr)
    (name : list byte) (es : list dirent) :
  directory img dir es -> (length es < fuel)%nat ->
  get_inode_from_dir fuel img dir name = Ret (first_match name es).
Proof.
  intros (b & p & Hb & Hp & Hblock) Hfuel. unfold get_inode_from_dir.
  rewrite Hb. cbn [obind]. rewrite Hp. cbn [obind].
  by apply scan_dir_spec.
Qed.

(** A record that is not the sentinel, does not pass the test and has
    [rec_len = 0] keeps the scan on itself for ever. *)
Lemma scan_dir_stuck (img : image) (name : list byte) (p : ptr)
    (file_type name_len c : Z) :
  load8 img (p + off_file_type) = Ret file_type -> file_type <> 0 ->
  load8 img (p + off_name_len) = Ret name_len ->
  strncmp img name (p + off_name) (Z.to_nat name_len) = Ret c -> c <> 0 ->
  load16 img (p + off_rec_len) = Ret 0 ->
  forall fuel, scan_dir fuel img name p = Timeout.
Proof.
  intros Hft Hne Hnl Hcmp Hc Hrl fuel.
  induction fuel as [| fuel IH]; [reflexivity |].
  cbn [scan_dir]. rewrite Hft. cbn [obind].
  destruct (Z.eqb_spec file_type 0) as [| _]; [contradiction |].
  rewrite Hnl. cbn [obind]. rewrite Hcmp. cbn [obind].
  destruct (Z.eqb_spec c 0) as [| _]; [contradiction |].
  rewrite Hrl. cbn [obind]. rewrite Z.add_0_r. exact IH.
Qed.

(** The test passes exactly when the record's name is a prefix of the
    queried string. *)
Lemma strncmp_bytes_prefix (s2 : list byte) :
  forall s1 : list byte,
    NUL ∉ s2 ->
    strncmp_bytes s1 s2 (length s2) = 0 <-> s2 `prefix_of` cstring s1.
Proof.
  induction s2 as [| b s2 IH]; intros s1 Hnul.
  - split; [intros _; apply prefix_nil | reflexivity].
  - apply not_elem_of_cons in Hnul as [Hb Hnul].
    assert (Hb0 : byte_val b <> 0) by (rewrite byte_val_NUL; congruence).
    cbn [length strncmp_bytes]. change (char_at (b :: s2) 0) with b.
    cbn [tl]. destruct s1 as [| c s1].
    + change (char_at [] 0) with NUL. change (byte_val NUL) with 0.
      destruct (Z.eqb_spec 0 (byte_val b)) as [Heq | Hneq]; [lia |].
      cbn [negb]. split; [lia |].
      rewrite cstring_nil. intros [k Hk]. discriminate.
    + change (char_at (c :: s1) 0) with c. cbn [tl]. rewrite cstring_cons.
      destruct (Z.eqb_spec (byte_val c) (byte_val b)) as [Heq | Hneq];
        cbn [negb].
      * apply byte_val_inj in Heq. subst c.
        destruct (Z.eqb_spec (byte_val b) 0) as [| _]; [contradiction |].
        assert (Byte.eqb b NUL = false) as -> by (apply byte_eqb_false; congruence).
        rewrite (IH s1 Hnul). split.
        -- intros [k ->]. exists k. reflexivity.
        -- intros [k Hk]. injection Hk as Hk. exists k. exact Hk.
      * split; [lia |]. byte_eq c NUL.
        -- intros [k Hk]. discriminate.
        -- intros [k Hk]. injection Hk as -> _. contradiction.
Qed.

Lemma matches_prefix (name : list byte) (e : dirent) :
  NUL ∉ d_name e ->
  matches name e = true <-> d_name e `prefix_of` cstring name.
Proof.
  intros Hnul. unfold matches. rewrite Z.eqb_eq.
  by apply strncmp_bytes_prefix.
Qed.

(** A record with an empty name passes the test for every query. *)
Lemma matches_empty_name (name : list byte) (e : dirent) :
  d_name e = [] -> matches name e = true.
Proof. unfold matches. intros ->. reflexivity. Qed.

(** When no record's name is a proper prefix of the queried name, the scan
    finds the record with exactly that name. *)
Lemma first_match_exact (name : list byte) (es : list dirent) :
  Forall (fun e => NUL ∉ d_name e) es ->
  Forall (fun e => d_name e `prefix_of` cstring name ->
                   d_name e = cstring name) es ->
  first_match name es = lookup_entry name es.
Proof.
  induction es as [| e es IH]; intros Hnul Hsh; [reflexivity |].
  apply Forall_cons in Hnul as [Hn Hnul].
  apply Forall_cons in Hsh as [Hs Hsh].
  cbn [first_match lookup_entry].
  destruct (matches name e) eqn:Hm.
  - apply (matches_prefix _ _ Hn) in Hm. by rewrite decide_True by auto.
  - destruct (decide (d_name e = cstring name)) as [Heq | _]; [| by apply IH].
    assert (matches name e = true); [| congruence].
    apply (matches_prefix _ _ Hn). by rewrite Heq.
Qed.

(** The empty string is not found among valid names. *)
Lemma first_match_empty (es : list dirent) :
  Forall (fun e => valid_name (d_name e)) es -> first_match [] es = 0.
Proof.
  induction es as [| e es IH]; intros Hv; [reflexivity |].
  apply Forall_cons in Hv as [(Hne & Hnul & _) Hv].
  cbn [first_match]. destruct (matches [] e) eqn:Hm; [| by apply IH].
  apply (matches_prefix _ _ Hnul) in Hm. rewrite cstring_nil in Hm.
  apply prefix_nil_inv in Hm. contradiction.
Qed.

(** ** Traversals over well-formed directories *)

Lemma walk_descends (img : image) (names : list (list byte)) (folders : ptr)
    (inodeNo r : Z) :
  descends img first_match folders names inodeNo r ->
  exists bound : nat, forall fuel : nat,
    (bound <= fuel)%nat ->
    walk img (get_inode_from_dir fuel img) names folders inodeNo = Ret r.
Proof.
  induction 1 as [folders inodeNo
                 | folders inodeNo name rest es Hdir Hmiss
                 | folders inodeNo name rest es folders' r Hdir Hhit Hino _ IH].
  - exists O. reflexivity.
  - exists (S (length es)). intros fuel Hfuel. cbn [walk].
    rewrite (get_inode_from_dir_spec _ _ _ _ es) by (assumption || lia).
    cbn [obind]. rewrite Hmiss. reflexivity.
  - destruct IH as [bound IH].
    exists (Nat.max (S (length es)) bound). intros fuel Hfuel. cbn [walk].
    rewrite (get_inode_from_dir_spec _ _ _ _ es) by (assumption || lia).
    cbn [obind].
    destruct (Z.eqb_spec (first_match name es) 0) as [| _]; [contradiction |].
    rewrite Hino. cbn [obind]. apply IH. lia.
Qed.

Lemma first_match_unshadowed (name : list byte) (es : list dirent) :
  unshadowed name es -> first_match name es = lookup_entry name es.
Proof.
  intros Hun. apply first_match_exact.
  - eapply Forall_impl; [exact Hun |]. by intros e [Hnul _].
  - eapply Forall_impl; [exact Hun |]. by intros e [_ Hsh].
Qed.

Lemma resolves_descends (img : image) (names : list (list byte))
    (folders : ptr) (inodeNo r : Z) :
  resolves img folders names inodeNo r ->
  descends img first_match folders names inodeNo r.
Proof.
  induction 1 as [folders inodeNo
                 | folders inodeNo name rest es Hdir Hun Hmiss
                 | folders inodeNo name rest es folders' r Hdir Hun Hhit Hino _ IH].
  - apply descends_done.
  - apply descends_miss with (es := es); [exact Hdir |].
    by rewrite first_match_unshadowed.
  - rewrite <- (first_match_unshadowed _ _ Hun) in *.
    by apply descends_step with (es := es) (folders' := folders').
Qed.

(** ** The fixtures hold what they are built from *)

Lemma hello_root_directory : directory hello_image root_inode hello_root.
Proof. check_directory 5 9216. Qed.

Lemma hello_files_directory : directory hello_image sub_inode hello_files.
Proof. check_directory 6 10240. Qed.

Lemma prefix_root_directory : directory prefix_image root_inode prefix_root.
Proof. check_directory 5 9216. Qed.

Lemma empty_name_root_directory :
  directory empty_name_image root_inode empty_name_root.
Proof. check_directory 5 9216. Qed.

Lemma valid_hello_root : Forall (fun e => valid_name (d_name e)) hello_root.
Proof. check_names. Qed.

(** ** Addresses *)

Lemma load8_range (img : image) (a : ptr) (v : Z) :
  load8 img a = Ret v -> 0 <= v < 256.
Proof.
  unfold load8. destruct (a <? fs img); [discriminate |].
  destruct (image_bytes img !! Z.to_nat (a - fs img)); [| discriminate].
  intros [= <-]. apply byte_val_range.
Qed.

Lemma load16_range (img : image) (a : ptr) (v : Z) :
  load16 img a = Ret v -> 0 <= v < 65536.
Proof.
  unfold load16.
  destruct (load8 img a) as [b0 | |] eqn:H0; try discriminate.
  destruct (load8 img (a + 1)) as [b1 | |] eqn:H1; try discriminate.
  apply load8_range in H0, H1. cbn [obind]. intros [= <-]. lia.
Qed.

Lemma wrap32_mul_l (a b : Z) : wrap32 (wrap32 a * b) = wrap32 (a * b).
Proof. unfold wrap32. apply Z.mul_mod_idemp_l. lia. Qed.

Lemma wrap32_small (z : Z) : 0 <= z < 2 ^ 32 -> wrap32 z = z.
Proof. unfold wrap32. apply Z.mod_small. Qed.

(** C10 (confirmed).  [get_block_group] ignores its [block_group_num]
    argument: for every image and every two group numbers, zero or not, it
    returns the same address, the image start plus the superblock offset
    plus the superblock size; a group number never indexes a table of
    descriptors. *)
Theorem get_block_group_ignores_group (img : image) (g1 g2 : Z) :
  get_block_group img g1 = get_block_group img g2 /\
  get_block_group img g2 = fs img + SUPERBLOCK_OFFSET + SUPERBLOCK_SIZE.
Proof. split; reflexivity. Qed.

(** C8, as stated, fails: the offset [(inode_num - 1) * inode_size] is a
    [__u32] product.  With 128-byte records, inode number 2^25 + 1 is
    answered with the start of the table, not with the address 2^32 bytes
    further on. *)
Lemma get_inode_offset_wraps :
  load32 hello_image (get_block_group hello_image 0 + off_bg_inode_table)
    = Ret 3 /\
  get_block hello_image 3 = Ret 7168 /\
  EXT2_INODE_SIZE hello_image (get_super_block hello_image) = Ret 128 /\
  get_inode hello_image 33554433 = Ret 7168 /\
  get_inode hello_image 33554433 <> Ret (7168 + (33554433 - 1) * 128).
Proof. vm_compute. repeat split; try reflexivity. discriminate. Qed.

(** C8 (corrected).  For every image and every 1-based inode number,
    [get_inode] returns [table_start + ((inode_num - 1) * inode_size mod 2^32)],
    where [table_start] is the block whose number is read from the
    block-group descriptor's inode-table field and [inode_size] is read
    from the superblock; this is [table_start + (inode_num - 1) * inode_size]
    whenever the product is below 2^32.  [get_root_dir] is [get_inode] at
    inode number 2. *)
Theorem get_inode_address (img : image)
    (inode_num inodeTableIndex table_start inode_size : Z) :
  load32 img (get_block_group img 0 + off_bg_inode_table)
    = Ret inodeTableIndex ->
  get_block img inodeTableIndex = Ret table_start ->
  EXT2_INODE_SIZE img (get_super_block img) = Ret inode_size ->
  1 <= inode_num < 2 ^ 32 ->
  get_inode img inode_num
    = Ret (table_start + wrap32 ((inode_num - 1) * inode_size)) /\
  ((inode_num - 1) * inode_size < 2 ^ 32 ->
   get_inode img inode_num
     = Ret (table_start + (inode_num - 1) * inode_size)) /\
  get_root_dir img = get_inode img 2.
Proof.
  intros Hidx Htable Hsize Hnum.
  assert (Hget : get_inode img inode_num
                 = Ret (table_start + wrap32 ((inode_num - 1) * inode_size))).
  { unfold get_inode. rewrite Hidx. cbn [obind]. rewrite Htable. cbn [obind].
    rewrite Hsize. cbn [obind]. by rewrite wrap32_mul_l. }
  split; [exact Hget |]. split; [| reflexivity].
  intros Hsmall. rewrite Hget. do 2 f_equal. apply wrap32_small.
  unfold EXT2_INODE_SIZE in Hsize. apply load16_range in Hsize. nia.
Qed.

Lemma get_inode_address_witness :
  get_inode hello_image 12 = Ret (7168 + wrap32 ((12 - 1) * 128)) /\
  ((12 - 1) * 128 < 2 ^ 32 ->
   get_inode hello_image 12 = Ret (7168 + (12 - 1) * 128)) /\
  get_root_dir hello_image = get_inode hello_image 2.
Proof.
  apply (get_inode_address hello_image 12 3 7168 128);
    [reflexivity | reflexivity | reflexivity | lia].
Defined.

(** ** The pieces of a path *)

Lemma segments_clean (s : list byte) :
  Forall (fun seg => NUL ∉ seg) (segments s).
Proof.
  induction s as [| c s IH]; simpl.
  - repeat constructor. apply not_elem_of_nil.
  - byte_eq c NUL; [repeat constructor; apply not_elem_of_nil |].
    byte_eq c SLASH; [constructor; [apply not_elem_of_nil | exact IH] |].
    destruct (segments s) as [| seg segs].
    { repeat constructor. rewrite not_elem_of_cons.
      split; [congruence | apply not_elem_of_nil]. }
    apply Forall_cons in IH as [Hseg Hsegs].
    apply Forall_cons. split; [| exact Hsegs].
    rewrite not_elem_of_cons. split; [congruence | exact Hseg].
Qed.

Lemma read_parts_split (h0 : list object) (segs : list (list byte)) :
  Forall (fun seg => NUL ∉ seg) segs ->
  read_parts (split_heap h0 segs) (length h0) = Some segs.
Proof.
  intros Hclean. unfold read_parts, split_heap, with_parts.
  rewrite heap_lookup_parts.
  rewrite length_fmap, Nat.sub_diag. cbn [replicate]. rewrite app_nil_r.
  apply mapM_Some. apply Forall2_same_length_lookup_2.
  { by rewrite length_fmap, length_seq. }
  intros i p seg Hp Hseg.
  rewrite list_lookup_fmap in Hp.
  pose proof (lookup_lt_Some _ _ _ Hseg) as Hlt.
  rewrite lookup_seq_lt in Hp by exact Hlt. injection Hp as <-.
  rewrite lookup_app_r by lia.
  rewrite lookup_cons_ne_0 by lia.
  replace (Init.Nat.pred (S (length h0 + i) - length h0)) with i by lia.
  rewrite list_lookup_fmap, Hseg. cbn.
  f_equal. apply cstring_app_NUL.
  by eapply Forall_lookup_1 in Hclean.
Qed.

(** C7 (confirmed).  [split_path("/a/b/c")] returns the ordered sequence
    ["a", "b", "c"].  For every path beginning with ['/'], the empty
    segment before that slash is discarded and the segments between the
    separators after it are returned in order; consecutive or trailing
    slashes give empty-string components, as in "/a//c/". *)
Theorem split_path_segments :
  (forall img h0, exists parts h',
     split_path (cstr "/a/b/c") (State img h0) = Ret (parts, State img h') /\
     read_parts h' parts = Some [cstr "a"; cstr "b"; cstr "c"]) /\
  (forall img h0 rest, exists parts h',
     split_path (SLASH :: rest) (State img h0) = Ret (parts, State img h') /\
     read_parts h' parts = Some (segments rest)) /\
  (forall img h0, exists parts h',
     split_path (cstr "/a//c/") (State img h0) = Ret (parts, State img h') /\
     read_parts h' parts = Some [cstr "a"; []; cstr "c"; []]).
Proof.
  assert (Hgen : forall img h0 rest, exists parts h',
     split_path (SLASH :: rest) (State img h0) = Ret (parts, State img h') /\
     read_parts h' parts = Some (segments rest)).
  { intros img h0 rest.
    exists (length h0), (split_heap h0 (segments rest)).
    split; [apply split_path_spec |].
    apply read_parts_split, segments_clean. }
  split; [| split]; [| exact Hgen |]; intros img h0.
  - apply (Hgen img h0 (cstr "a/b/c")).
  - apply (Hgen img h0 (cstr "a//c/")).
Qed.

(** ** The claims about [get_inode_by_path] and [get_inode_from_dir] *)

Lemma omap_fst_pair {A S} (m : outcome A) (s : S) :
  omap fst (omap (fun r => (r, s)) m) = m.
Proof. destruct m; reflexivity. Qed.

(** The result of a call is a function of the image and the path; the heap
    it starts from plays no part. *)
Lemma get_inode_by_path_result (fuel : nat) (path : list byte) (img : image)
    (h0 : list object) :
  omap fst (get_inode_by_path fuel path (State img h0))
  = if (count_slash (cstring path) =? 0)%nat then Ret 0
    else let* root := get_root_dir img in
         walk img (get_inode_from_dir fuel img)
           (take (count_slash (cstring path)) (segments (tl path))) root 0.
Proof.
  destruct (Nat.eqb_spec (count_slash (cstring path)) 0) as [H0 | Hne].
  - by rewrite get_inode_by_path_no_slash.
  - rewrite get_inode_by_path_spec by exact Hne. apply omap_fst_pair.
Qed.

Lemma get_inode_by_path_image (fuel : nat) (path : list byte) (s s' : state)
    (r : Z) :
  get_inode_by_path fuel path s = Ret (r, s') -> st_image s' = st_image s.
Proof.
  destruct s as [img h0].
  destruct (Nat.eq_dec (count_slash (cstring path)) O) as [H0 | Hne].
  - rewrite get_inode_by_path_no_slash by exact H0. by intros [= _ <-].
  - rewrite get_inode_by_path_spec by exact Hne.
    destruct (let* root := get_root_dir img in _) as [r' | |];
      cbn [omap obind]; [| discriminate | discriminate].
    by intros [= _ <-].
Qed.

(** C9 (confirmed).  [get_inode_by_path] is deterministic and never writes
    to the image: two calls on the same image and path return the same
    result whatever the heap they start from, and after a call that
    returned, the image is the one it was called with and a second call,
    made in the state the first one left, returns the same inode number. *)
Theorem get_inode_by_path_repeatable (fuel : nat) (path : list byte)
    (img : image) (h1 h2 : list object) :
  omap fst (get_inode_by_path fuel path (State img h1))
  = omap fst (get_inode_by_path fuel path (State img h2)) /\
  (forall (r : Z) (s' : state),
     get_inode_by_path fuel path (State img h1) = Ret (r, s') ->
     st_image s' = img /\
     omap fst (get_inode_by_path fuel path s') = Ret r).
Proof.
  split; [by rewrite !get_inode_by_path_result |].
  intros r s' Hrun.
  pose proof (get_inode_by_path_image _ _ _ _ _ Hrun) as Himg.
  split; [exact Himg |].
  destruct s' as [img' h']. cbn in Himg. subst img'.
  rewrite get_inode_by_path_result, <- (get_inode_by_path_result _ _ _ h1).
  by rewrite Hrun.
Qed.

Lemma get_inode_by_path_repeatable_witness :
  get_inode_by_path 4 (cstr "/files/hello.txt") (State hello_image [])
  = Ret (13, State hello_image
               (split_heap [] [cstr "files"; cstr "hello.txt"])) /\
  omap fst (get_inode_by_path 4 (cstr "/files/hello.txt")
              (State hello_image
                 (split_heap [] [cstr "files"; cstr "hello.txt"])))
  = Ret 13.
Proof.
  assert (Hrun : get_inode_by_path 4 (cstr "/files/hello.txt")
                   (State hello_image [])
                 = Ret (13, State hello_image
                              (split_heap [] [cstr "files"; cstr "hello.txt"])))
    by (vm_compute; reflexivity).
  split; [exact Hrun |].
  exact (proj2 (proj2 (get_inode_by_path_repeatable 4 (cstr "/files/hello.txt")
                         hello_image [] []) _ _ Hrun)).
Defined.



(** C5, as stated, fails: a path that has a slash but does not begin with
    one is not rejected.  Its first byte is skipped, so "xfiles/hello.txt"
    is answered with the inode number of the directory "files". *)
Lemma relative_path_not_rejected :
  head (cstr "xfiles/hello.txt") <> Some SLASH /\
  run (get_inode_by_path 4 (cstr "xfiles/hello.txt")) hello_image = Ret 12.
Proof. split; [discriminate | vm_compute; reflexivity]. Qed.

(** C5 (corrected).  For every image and every path with no ['/'] in it,
    [get_inode_by_path] returns NOT_FOUND (0) without any directory lookup:
    whatever the image holds and however little fuel the scan is given,
    and leaving the state as it was. *)
Theorem get_inode_by_path_without_slash (fuel : nat) (path : list byte)
    (s : state) :
  SLASH ∉ cstring path ->
  get_inode_by_path fuel path s = Ret (0, s).
Proof.
  intros Hno. apply get_inode_by_path_no_slash.
  unfold count_slash. induction (cstring path) as [| c l IH]; [reflexivity |].
  apply not_elem_of_cons in Hno as [Hc Hl].
  rewrite filter_cons, decide_False by congruence. by apply IH.
Qed.

Lemma get_inode_by_path_without_slash_witness :
  get_inode_by_path 0 (cstr "files") (State (Image 0 []) [])
  = Ret (0, State (Image 0 []) []).
Proof.
  apply (get_inode_by_path_without_slash 0 (cstr "files")).
  intros Hin. apply list_elem_of_In in Hin. vm_compute in Hin.
  intuition discriminate.
Defined.

(** C3, as stated, fails: the scan has no bound.  On a block whose first
    record is not the sentinel, does not match and has [rec_len = 0], the
    loop of [get_inode_from_dir] stays on that record whatever the fuel,
    and so does [get_inode_by_path]. *)
Lemma scan_never_returns :
  load16 stuck_image (9216 + off_rec_len) = Ret 0 /\
  (forall fuel,
     get_inode_from_dir fuel stuck_image root_inode (cstr "x") = Timeout) /\
  (forall fuel,
     run (get_inode_by_path fuel (cstr "/x")) stuck_image = Timeout).
Proof.
  assert (Hscan : forall fuel,
            get_inode_from_dir fuel stuck_image root_inode (cstr "x")
            = Timeout).
  { intros fuel. unfold get_inode_from_dir.
    replace (load32 stuck_image (root_inode + off_i_block)) with (Ret 5)
      by (vm_compute; reflexivity).
    cbn [obind].
    replace (get_block stuck_image 5) with (Ret 9216)
      by (vm_compute; reflexivity).
    cbn [obind].
    apply (scan_dir_stuck stuck_image (cstr "x") 9216 2 1 74);
      solve [vm_compute; reflexivity | discriminate]. }
  split; [vm_compute; reflexivity |]. split; [exact Hscan |].
  intros fuel. unfold run.
  change (cstr "/x") with (SLASH :: cstr "x").
  rewrite get_inode_by_path_absolute, omap_fst_pair.
  replace (get_root_dir stuck_image) with (Ret root_inode)
    by (vm_compute; reflexivity).
  cbn [obind].
  change (segments (cstr "x")) with [cstr "x"]. cbn [walk].
  by rewrite Hscan.
Qed.

(** C3 (corrected).  On every directory whose first block holds a finite
    chain of records linked by [rec_len] and closed by a [file_type = 0]
    record, [get_inode_from_dir] returns after at most one step per record;
    and [get_inode_by_path] returns on every absolute path for which every
    directory it visits is such a chain. *)
Theorem lookups_return :
  (forall (img : image) (dir : ptr) (es : list dirent) (name : list byte)
          (fuel : nat),
     directory img dir es ->
     (length es < fuel)%nat ->
     get_inode_from_dir fuel img dir name = Ret (first_match name es)) /\
  (forall (img : image) (root : ptr) (rest : list byte) (r : Z),
     get_root_dir img = Ret root ->
     descends img first_match root (segments rest) 0 r ->
     exists bound : nat, forall fuel h0, (bound <= fuel)%nat ->
       omap fst (get_inode_by_path fuel (SLASH :: rest) (State img h0))
       = Ret r).
Proof.
  split.
  - intros img dir es name fuel Hdir Hfuel.
    by apply get_inode_from_dir_spec.
  - intros img root rest r Hroot Hwalk.
    destruct (walk_descends _ _ _ _ _ Hwalk) as [bound Hbound].
    exists bound. intros fuel h0 Hfuel.
    rewrite get_inode_by_path_absolute, omap_fst_pair, Hroot. cbn [obind].
    by apply Hbound.
Qed.

Lemma hello_descends :
  descends hello_image first_match root_inode
    (segments (cstr "files/hello.txt")) 0 13.
Proof.
  change (segments (cstr "files/hello.txt"))
    with [cstr "files"; cstr "hello.txt"].
  eapply descends_step with (es := hello_root) (folders' := sub_inode);
    [apply hello_root_directory | discriminate | reflexivity |].
  change (first_match (cstr "files") hello_root) with 12.
  change 13 with (first_match (cstr "hello.txt") hello_files).
  eapply descends_step with (es := hello_files);
    [apply hello_files_directory | discriminate | reflexivity |].
  apply descends_done.
Qed.

Lemma lookups_return_witness :
  get_inode_from_dir 1 stuck_image sub_inode (cstr "x")
  = Ret (first_match (cstr "x") []) /\
  get_inode_from_dir 4 hello_image sub_inode (cstr "hello.txt")
  = Ret (first_match (cstr "hello.txt") hello_files) /\
  (exists bound : nat, forall fuel h0, (bound <= fuel)%nat ->
     omap fst (get_inode_by_path fuel (SLASH :: cstr "files/hello.txt")
                 (State hello_image h0)) = Ret 13).
Proof.
  destruct lookups_return as [Hscan Hpath].
  split; [| split].
  - apply (Hscan stuck_image sub_inode [] (cstr "x") 1%nat).
    + check_directory 6 10240.
    + simpl. lia.
  - apply (Hscan hello_image sub_inode hello_files (cstr "hello.txt") 4%nat).
    + apply hello_files_directory.
    + simpl. lia.
  - apply (Hpath hello_image root_inode (cstr "files/hello.txt") 13).
    + reflexivity.
    + apply hello_descends.
Defined.

(** X17.  When the first block of the directory holds a chain of records
    closed by a [file_type = 0] record and no record's name has a NUL byte
    in it or is a proper prefix of the queried name, [get_inode_from_dir]
    does what its comment says: it returns the inode number of the record
    with exactly that name, or 0 if there is none. *)
Lemma get_inode_from_dir_exact (fuel : nat) (img : image) (dir : ptr)
    (name : list byte) (es : list dirent) :
  directory img dir es -> (length es < fuel)%nat ->
  Forall (fun e => NUL ∉ d_name e) es ->
  Forall (fun e => d_name e `prefix_of` cstring name ->
                   d_name e = cstring name) es ->
  get_inode_from_dir fuel img dir name = Ret (lookup_entry name es).
Proof.
  intros Hdir Hfuel Hnul Hsh.
  rewrite (get_inode_from_dir_spec _ _ _ _ es) by assumption.
  by rewrite first_match_exact.
Qed.

Lemma get_inode_from_dir_exact_witness :
  get_inode_from_dir 4 hello_image sub_inode (cstr "hello.txt")
  = Ret (lookup_entry (cstr "hello.txt") hello_files).
Proof.
  apply (get_inode_from_dir_exact 4 hello_image sub_inode (cstr "hello.txt")
           hello_files).
  - apply hello_files_directory.
  - simpl. lia.
  - repeat (apply Forall_cons; split); try (by apply Forall_nil);
      intros Hin; apply list_elem_of_In in Hin; vm_compute in Hin;
      intuition discriminate.
  - repeat (apply Forall_cons; split); try (by apply Forall_nil);
      intros [k Hk]; first [reflexivity | vm_compute in Hk; discriminate].
Defined.

(** X16.  On an absolute path, when every directory visited holds a chain
    of records closed by a [file_type = 0] record in which no name has a
    NUL byte in it or is a proper prefix of the component looked up there,
    [get_inode_by_path] returns, given fuel enough, what the traversal by
    exact lookup finds: the inode number of the last component, or 0 at the
    first component that names no record. *)
Lemma get_inode_by_path_exact (img : image) (root : ptr) (rest : list byte)
    (r : Z) :
  get_root_dir img = Ret root ->
  resolves img root (segments rest) 0 r ->
  exists bound : nat, forall fuel h0, (bound <= fuel)%nat ->
    omap fst (get_inode_by_path fuel (SLASH :: rest) (State img h0)) = Ret r.
Proof.
  intros Hroot Hres. apply resolves_descends in Hres.
  destruct (walk_descends _ _ _ _ _ Hres) as [bound Hbound].
  exists bound. intros fuel h0 Hfuel.
  rewrite get_inode_by_path_absolute, omap_fst_pair, Hroot. cbn [obind].
  by apply Hbound.
Qed.

Example hello_txt_resolved :
  exists bound : nat, forall fuel h0, (bound <= fuel)%nat ->
    omap fst (get_inode_by_path fuel (cstr "/files/hello.txt")
                (State hello_image h0)) = Ret 13.
Proof.
  apply (get_inode_by_path_exact hello_image root_inode
           (cstr "files/hello.txt") 13); [reflexivity |].
  change (segments (cstr "files/hello.txt"))
    with [cstr "files"; cstr "hello.txt"].
  eapply resolves_step with (es := hello_root) (folders' := sub_inode);
    [apply hello_root_directory | check_unshadowed | discriminate
    | reflexivity |].
  change (lookup_entry (cstr "files") hello_root) with 12.
  change 13 with (lookup_entry (cstr "hello.txt") hello_files).
  eapply resolves_step with (es := hello_files);
    [apply hello_files_directory | check_unshadowed | discriminate
    | reflexivity |].
  apply resolves_done.
Defined.

(** The end-to-end scenario of the spec on the fixture image. *)
Example fixture_scenario :
  run (get_inode_by_path 4 (cstr "/files/hello.txt")) hello_image = Ret 13 /\
  run (get_inode_by_path 4 (cstr "/files/missing.txt")) hello_image = Ret 0 /\
  run (get_inode_by_path 4 (cstr "/nope")) hello_image = Ret 0.
Proof. vm_compute. repeat split; reflexivity. Qed.

(** C2 (code bug).  The test of [get_inode_from_dir] compares only the
    [name_len] bytes of the record, so it passes for every query that the
    record's name is a prefix of.  In a directory holding "a" (inode 12)
    and "ab" (inode 13), the query "abc", which names no record, is
    answered 12; in a directory with a record of name length 0 (inode 12),
    the query "zzz" is answered 12. *)
Theorem get_inode_from_dir_matches_prefixes :
  directory prefix_image root_inode prefix_root /\
  lookup_entry (cstr "abc") prefix_root = 0 /\
  get_inode_from_dir 5 prefix_image root_inode (cstr "abc") = Ret 12 /\
  directory empty_name_image root_inode empty_name_root /\
  lookup_entry (cstr "zzz") empty_name_root = 0 /\
  get_inode_from_dir 4 empty_name_image root_inode (cstr "zzz") = Ret 12.
Proof.
  split; [apply prefix_root_directory |].
  split; [reflexivity |].
  split; [vm_compute; reflexivity |].
  split; [apply empty_name_root_directory |].
  split; [reflexivity | vm_compute; reflexivity].
Qed.

(** C6 (code bug).  In a directory whose records are ".", "..", "a"
    (inode 12) and "ab" (inode 13), the name "ab" is the last entry before
    the sentinel, and [get_inode_from_dir] answers 12 for it: the scan
    stops at "a". *)
Theorem get_inode_from_dir_last_entry_shadowed :
  directory prefix_image root_inode prefix_root /\
  last prefix_root = Some (entry 13 FT_REG "ab") /\
  lookup_entry (cstr "ab") prefix_root = 13 /\
  get_inode_from_dir 5 prefix_image root_inode (cstr "ab") = Ret 12.
Proof.
  split; [apply prefix_root_directory |].
  split; [reflexivity |].
  split; [reflexivity | vm_compute; reflexivity].
Qed.

(** C1 (code bug).  In the image whose root directory holds "a" (inode 12)
    and "ab" (inode 13), the path "/ab" exists and the traversal of the
    spec, which looks names up exactly, finds inode 13;
    [get_inode_by_path] returns 12. *)
Theorem get_inode_by_path_wrong_inode :
  get_root_dir prefix_image = Ret root_inode /\
  descends prefix_image lookup_entry root_inode (segments (cstr "ab")) 0 13 /\
  run (get_inode_by_path 5 (cstr "/ab")) prefix_image = Ret 12.
Proof.
  split; [reflexivity |]. split; [| vm_compute; reflexivity].
  change (segments (cstr "ab")) with [cstr "ab"].
  change 13 with (lookup_entry (cstr "ab") prefix_root).
  eapply descends_step with (es := prefix_root);
    [apply prefix_root_directory | discriminate | reflexivity |].
  apply descends_done.
Qed.

(** ** Further properties of the accessors *)

Lemma get_block_size_range (img : image) (bs : Z) :
  get_block_size img = Ret bs -> 0 <= bs < 2 ^ 32.
Proof.
  unfold get_block_size, EXT2_BLOCK_SIZE.
  destruct (load32 img _) as [field | |]; cbn [obind]; try discriminate.
  intros [= <-]. unfold wrap32. apply Z.mod_pos_bound. lia.
Qed.

Lemma get_inode_unfold (img : image) (inode_num idx table_start isz : Z) :
  load32 img (get_block_group img 0 + off_bg_inode_table) = Ret idx ->
  get_block img idx = Ret table_start ->
  EXT2_INODE_SIZE img (get_super_block img) = Ret isz ->
  get_inode img inode_num
  = Ret (table_start + wrap32 ((inode_num - 1) * isz)).
Proof.
  intros Hidx Htable Hsize. unfold get_inode.
  rewrite Hidx. cbn [obind]. rewrite Htable. cbn [obind].
  rewrite Hsize. cbn [obind]. by rewrite wrap32_mul_l.
Qed.

(** X1.  [get_block(fs, 0) == fs], as the comment on [get_block] says, and
    as long as the byte offset stays below 2^32 block [n] is at
    [fs + n * block_size], so that consecutive blocks are [block_size]
    apart. *)
Theorem get_block_consecutive (img : image) (block_size n : Z) :
  get_block_size img = Ret block_size ->
  0 <= n ->
  (n + 1) * block_size < 2 ^ 32 ->
  get_block img 0 = Ret (fs img) /\
  get_block img n = Ret (fs img + n * block_size) /\
  get_block img (n + 1) = Ret (fs img + n * block_size + block_size).
Proof.
  intros Hbs Hn Hsmall. pose proof (get_block_size_range _ _ Hbs) as Hrange.
  unfold get_block. rewrite Hbs. cbn [obind].
  repeat split; f_equal.
  - rewrite Z.mul_0_l. unfold wrap32. rewrite Z.mod_0_l by lia. lia.
  - rewrite wrap32_small by nia. reflexivity.
  - rewrite wrap32_small by nia. lia.
Qed.

Lemma get_block_consecutive_witness :
  get_block hello_image 0 = Ret (fs hello_image) /\
  get_block hello_image 5 = Ret (fs hello_image + 5 * 1024) /\
  get_block hello_image (5 + 1) = Ret (fs hello_image + 5 * 1024 + 1024).
Proof.
  apply (get_block_consecutive hello_image 1024 5); [reflexivity | lia | lia].
Defined.

(** X2.  The byte offset of a block is a [__u32] product, so block numbers
    alias once the offset reaches 4 GiB: with [m] blocks to 2^32 bytes,
    block [n + m] is at the address of block [n]. *)
Theorem get_block_aliases (img : image) (block_size m n : Z) :
  get_block_size img = Ret block_size ->
  block_size * m = 2 ^ 32 ->
  get_block img (n + m) = get_block img n.
Proof.
  intros Hbs Hm. unfold get_block. rewrite Hbs. cbn [obind].
  do 2 f_equal. unfold wrap32.
  replace ((n + m) * block_size) with (n * block_size + 1 * 2 ^ 32) by lia.
  apply Z_mod_plus_full.
Qed.

Lemma get_block_aliases_witness :
  get_block hello_image (5 + 4194304) = get_block hello_image 5.
Proof.
  apply (get_block_aliases hello_image 1024 4194304 5);
    [reflexivity | reflexivity].
Defined.

(** X3.  Inode records are consecutive in the table: for a 1-based inode
    number [n] whose record ends below the 4 GiB offset, [get_inode] of
    [n + 1] is [inode_size] bytes after [get_inode] of [n]; and the root
    directory's inode is always the second record, [table_start +
    inode_size]. *)
Theorem get_inode_consecutive (img : image)
    (n inodeTableIndex table_start inode_size : Z) :
  load32 img (get_block_group img 0 + off_bg_inode_table)
    = Ret inodeTableIndex ->
  get_block img inodeTableIndex = Ret table_start ->
  EXT2_INODE_SIZE img (get_super_block img) = Ret inode_size ->
  1 <= n ->
  n * inode_size < 2 ^ 32 ->
  get_inode img n = Ret (table_start + (n - 1) * inode_size) /\
  get_inode img (n + 1) = Ret (table_start + (n - 1) * inode_size + inode_size) /\
  get_root_dir img = Ret (table_start + inode_size).
Proof.
  intros Hidx Htable Hsize Hn Hsmall.
  assert (Hrange : 0 <= inode_size < 65536)
    by (unfold EXT2_INODE_SIZE in Hsize; by apply load16_range in Hsize).
  unfold get_root_dir.
  rewrite !(get_inode_unfold _ _ _ _ _ Hidx Htable Hsize).
  repeat split; f_equal.
  - rewrite wrap32_small by nia. reflexivity.
  - rewrite wrap32_small by nia. lia.
  - unfold EXT2_ROOT_INO. rewrite wrap32_small by lia. lia.
Qed.

Lemma get_inode_consecutive_witness :
  get_inode hello_image 12 = Ret (7168 + (12 - 1) * 128) /\
  get_inode hello_image (12 + 1) = Ret (7168 + (12 - 1) * 128 + 128) /\
  get_root_dir hello_image = Ret (7168 + 128).
Proof.
  apply (get_inode_consecutive hello_image 12 3 7168 128);
    [reflexivity | reflexivity | reflexivity | lia | lia].
Defined.

(** X4.  [get_inode] does not reject inode number 0, the NotFound value:
    [inode_num - 1] wraps to 2^32 - 1 and the address returned is
    [2^32 - inode_size] bytes after the start of the table, not one record
    before it. *)
Theorem get_inode_zero (img : image)
    (inodeTableIndex table_start inode_size : Z) :
  load32 img (get_block_group img 0 + off_bg_inode_table)
    = Ret inodeTableIndex ->
  get_block img inodeTableIndex = Ret table_start ->
  EXT2_INODE_SIZE img (get_super_block img) = Ret inode_size ->
  0 < inode_size ->
  get_inode img 0 = Ret (table_start + (2 ^ 32 - inode_size)).
Proof.
  intros Hidx Htable Hsize Hpos.
  assert (Hrange : 0 <= inode_size < 65536)
    by (unfold EXT2_INODE_SIZE in Hsize; by apply load16_range in Hsize).
  rewrite (get_inode_unfold _ _ _ _ _ Hidx Htable Hsize).
  do 2 f_equal. unfold wrap32.
  replace ((0 - 1) * inode_size)
    with (2 ^ 32 - inode_size + (-1) * 2 ^ 32) by lia.
  rewrite Z_mod_plus_full. apply Z.mod_small. lia.
Qed.

Lemma get_inode_zero_witness :
  get_inode hello_image 0 = Ret (7168 + (2 ^ 32 - 128)).
Proof.
  apply (get_inode_zero hello_image 3 7168 128);
    [reflexivity | reflexivity | reflexivity | lia].
Defined.

(** ** Further properties of the directory scan *)

Lemma records_at_app (img : image) (es1 es2 : list dirent) :
  forall p q : ptr,
    records_at img p (es1 ++ es2) q <->
    exists m, records_at img p es1 m /\ records_at img m es2 q.
Proof.
  induction es1 as [| e es1 IH]; intros p q; cbn [app records_at].
  - split; [intros H; by exists p | by intros (m & -> & H)].
  - rewrite IH. split.
    + intros (H1 & H2 & H3 & H4 & H5 & H6 & m & Hm & Hq).
      exists m. by repeat split.
    + intros (m & (H1 & H2 & H3 & H4 & H5 & H6 & Hm) & Hq).
      repeat split; try assumption. by exists m.
Qed.

(** One step of the loop on a record that is in the image. *)
Lemma scan_dir_step (img : image) (name : list byte) (p q : ptr) (e : dirent)
    (fuel : nat) :
  records_at img p [e] q ->
  scan_dir (S fuel) img name p
  = if matches name e then Ret (d_inode e) else scan_dir fuel img name q.
Proof.
  intros (Hft & Hne & Hino & Hrl & Hnl & Hname & <-). cbn [scan_dir].
  rewrite Hft. cbn [obind].
  destruct (Z.eqb_spec (d_file_type e) 0) as [| _]; [contradiction |].
  rewrite Hnl. cbn [obind]. rewrite Nat2Z.id.
  rewrite (strncmp_name_at _ _ _ _ _ Hname) by lia. cbn [obind].
  unfold matches.
  destruct (strncmp_bytes name (d_name e) (length (d_name e)) =? 0);
    [exact Hino |].
  rewrite Hrl. reflexivity.
Qed.

Lemma scan_dir_records (img : image) (name : list byte) (es : list dirent) :
  forall (p q : ptr) (fuel : nat),
    records_at img p es q ->
    Forall (fun e => matches name e = false) es ->
    scan_dir (length es + fuel) img name p = scan_dir fuel img name q.
Proof.
  induction es as [| e es IH]; intros p q fuel Hrec Hno.
  - simpl in Hrec. by subst q.
  - apply Forall_cons in Hno as [He Hno].
    change (e :: es) with ([e] ++ es) in Hrec.
    apply records_at_app in Hrec as (m & Hm & Hrec).
    cbn [length Nat.add]. rewrite (scan_dir_step _ _ _ _ _ _ Hm), He.
    by apply IH.
Qed.

Lemma no_prefix_no_match (name : list byte) (es : list dirent) :
  Forall (fun e => (NUL ∉ d_name e) /\
                   ~ d_name e `prefix_of` cstring name) es ->
  Forall (fun e => matches name e = false) es.
Proof.
  intros H. eapply Forall_impl; [exact H |]. intros e [Hnul Hno].
  destruct (matches name e) eqn:Hm; [| reflexivity].
  apply (matches_prefix _ _ Hnul) in Hm. contradiction.
Qed.

Lemma first_match_none (name : list byte) (es : list dirent) :
  Forall (fun e => matches name e = false) es -> first_match name es = 0.
Proof.
  induction 1 as [| e es He _ IH]; [reflexivity |].
  cbn [first_match]. by rewrite He.
Qed.

(** X5.  Records whose name has no NUL byte in it and is not a prefix of
    the query are skipped, one step of the loop each, and the scan goes on
    at the address their [rec_len] fields lead to.  That address is not
    compared with the end of the block: the scan follows the records
    wherever they lead. *)
Theorem get_inode_from_dir_skips (img : image) (dir p q : ptr) (b : Z)
    (es : list dirent) (name : list byte) (fuel : nat) :
  load32 img (dir + off_i_block) = Ret b ->
  get_block img b = Ret p ->
  records_at img p es q ->
  Forall (fun e => (NUL ∉ d_name e) /\
                   ~ d_name e `prefix_of` cstring name) es ->
  get_inode_from_dir (length es + fuel) img dir name
  = scan_dir fuel img name q.
Proof.
  intros Hb Hp Hrec Hno. unfold get_inode_from_dir.
  rewrite Hb. cbn [obind]. rewrite Hp. cbn [obind].
  apply scan_dir_records; [exact Hrec |].
  by apply no_prefix_no_match.
Qed.

Lemma get_inode_from_dir_skips_witness :
  get_inode_from_dir (length hello_root + 1) hello_image root_inode (cstr "x")
  = scan_dir 1 hello_image (cstr "x") 9256.
Proof.
  apply (get_inode_from_dir_skips hello_image root_inode 9216 9256 5
           hello_root (cstr "x") 1).
  - reflexivity.
  - reflexivity.
  - check_records.
  - check_no_prefix.
Defined.

(** X6.  When the names of the records have no NUL byte in them,
    [get_inode_from_dir] returns the inode field of the first record, in
    the order of the chain, whose name is a prefix of the query, after one
    step per record before it; what follows that record is not read, and
    an inode field of 0 is returned like any other. *)
Theorem get_inode_from_dir_first_prefix (img : image) (dir p q : ptr) (b : Z)
    (es : list dirent) (e : dirent) (name : list byte) (fuel : nat) :
  load32 img (dir + off_i_block) = Ret b ->
  get_block img b = Ret p ->
  records_at img p (es ++ [e]) q ->
  Forall (fun e' => (NUL ∉ d_name e') /\
                    ~ d_name e' `prefix_of` cstring name) es ->
  NUL ∉ d_name e ->
  d_name e `prefix_of` cstring name ->
  (length es < fuel)%nat ->
  get_inode_from_dir fuel img dir name = Ret (d_inode e).
Proof.
  intros Hb Hp Hrec Hno Hnul Hpre Hfuel.
  apply records_at_app in Hrec as (m & Hes & He).
  unfold get_inode_from_dir.
  rewrite Hb. cbn [obind]. rewrite Hp. cbn [obind].
  replace fuel with (length es + S (fuel - S (length es)))%nat by lia.
  rewrite (scan_dir_records _ _ _ _ _ _ Hes (no_prefix_no_match _ _ Hno)).
  rewrite (scan_dir_step _ _ _ _ _ _ He).
  by apply (matches_prefix _ _ Hnul) in Hpre as ->.
Qed.

Lemma get_inode_from_dir_first_prefix_witness :
  get_inode_from_dir 3 prefix_image root_inode (cstr "abc") = Ret 12.
Proof.
  apply (get_inode_from_dir_first_prefix prefix_image root_inode 9216 9252 5
           [entry 2 FT_DIR "."; entry 2 FT_DIR ".."] (entry 12 FT_REG "a")
           (cstr "abc") 3).
  - reflexivity.
  - reflexivity.
  - check_records.
  - check_no_prefix.
  - intros Hin; apply list_elem_of_In in Hin; vm_compute in Hin;
      intuition discriminate.
  - by exists (cstr "bc").
  - simpl. lia.
Defined.

(** X7.  When the first block of the directory holds a chain of records
    closed by a [file_type = 0] record, the names of the records have no
    NUL byte in them and none of them is a prefix of the query,
    [get_inode_from_dir] returns 0 after one step per record; in particular
    it returns 0 at once on a directory with no record. *)
Theorem get_inode_from_dir_absent (img : image) (dir : ptr)
    (es : list dirent) (name : list byte) (fuel : nat) :
  directory img dir es ->
  Forall (fun e => (NUL ∉ d_name e) /\
                   ~ d_name e `prefix_of` cstring name) es ->
  (length es < fuel)%nat ->
  get_inode_from_dir fuel img dir name = Ret 0.
Proof.
  intros Hdir Hno Hfuel.
  rewrite (get_inode_from_dir_spec _ _ _ _ es) by assumption.
  f_equal. by apply first_match_none, no_prefix_no_match.
Qed.

Lemma get_inode_from_dir_absent_witness :
  get_inode_from_dir 4 hello_image root_inode (cstr "nope") = Ret 0 /\
  get_inode_from_dir 1 hello_image (4096 + 3072 + 12 * 128) (cstr "x") = Ret 0.
Proof.
  split.
  - apply (get_inode_from_dir_absent hello_image root_inode hello_root
             (cstr "nope") 4).
    + apply hello_root_directory.
    + check_no_prefix.
    + simpl. lia.
  - apply (get_inode_from_dir_absent hello_image (4096 + 3072 + 12 * 128) []
             (cstr "x") 1).
    + exists 0, 4096. check_records.
    + apply Forall_nil_2.
    + simpl. lia.
Defined.

(** ** Further properties of [split_path] *)

Lemma segments_app (pre t : list byte) :
  NUL ∉ pre -> segments (pre ++ SLASH :: t) = segments pre ++ segments t.
Proof.
  induction pre as [| c pre IH]; intros Hnul; [reflexivity |].
  apply not_elem_of_cons in Hnul as [Hc Hnul].
  cbn [app segments].
  assert (Byte.eqb c NUL = false) as -> by (apply byte_eqb_false; congruence).
  rewrite (IH Hnul).
  destruct (Byte.eqb c SLASH); [reflexivity |].
  destruct (segments pre) as [| seg segs] eqn:Hseg;
    [by apply segments_nonempty in Hseg | reflexivity].
Qed.

Lemma segments_clean_piece (seg : list byte) :
  NUL ∉ seg -> SLASH ∉ seg -> segments seg = [seg].
Proof.
  induction seg as [| c seg IH]; intros Hnul Hsl; [reflexivity |].
  apply not_elem_of_cons in Hnul as [Hc Hnul].
  apply not_elem_of_cons in Hsl as [Hs Hsl].
  cbn [segments].
  assert (Byte.eqb c NUL = false) as -> by (apply byte_eqb_false; congruence).
  assert (Byte.eqb c SLASH = false) as -> by (apply byte_eqb_false; congruence).
  by rewrite IH.
Qed.

Lemma segments_no_slash (s : list byte) :
  Forall (fun seg => SLASH ∉ seg) (segments s).
Proof.
  induction s as [| c s IH]; simpl.
  - repeat constructor. apply not_elem_of_nil.
  - byte_eq c NUL; [repeat constructor; apply not_elem_of_nil |].
    byte_eq c SLASH; [constructor; [apply not_elem_of_nil | exact IH] |].
    destruct (segments s) as [| seg segs].
    { repeat constructor. rewrite not_elem_of_cons.
      split; [congruence | apply not_elem_of_nil]. }
    apply Forall_cons in IH as [Hseg Hsegs].
    apply Forall_cons. split; [| exact Hsegs].
    rewrite not_elem_of_cons. split; [congruence | exact Hseg].
Qed.

Lemma join_segments (s : list byte) : join (segments s) = cstring s.
Proof.
  induction s as [| c s IH]; [reflexivity |].
  rewrite cstring_cons. cbn [segments].
  byte_eq c NUL; [reflexivity |].
  byte_eq c SLASH.
  - subst c. rewrite <- IH.
    destruct (segments s) as [| seg segs] eqn:Hseg;
      [by apply segments_nonempty in Hseg | reflexivity].
  - rewrite <- IH.
    destruct (segments s) as [| seg segs] eqn:Hseg;
      [by apply segments_nonempty in Hseg |].
    destruct segs; reflexivity.
Qed.

Lemma segments_join (segs : list (list byte)) :
  segs <> [] ->
  Forall (fun seg => (NUL ∉ seg) /\ (SLASH ∉ seg)) segs ->
  segments (join segs) = segs.
Proof.
  induction segs as [| seg segs IH]; intros Hne Hclean; [done |].
  apply Forall_cons in Hclean as [[Hnul Hsl] Hclean].
  destruct segs as [| seg' segs].
  - by apply segments_clean_piece.
  - cbn [join]. rewrite segments_app by exact Hnul.
    rewrite segments_clean_piece by assumption.
    cbn [app]. f_equal. by apply IH.
Qed.

(** What [split_path] returns, read back from the heap. *)
Lemma split_path_parts (img : image) (h0 : list object) (c : byte)
    (rest : list byte) :
  exists parts h',
    split_path (c :: rest) (State img h0) = Ret (parts, State img h') /\
    read_parts h' parts = Some (segments rest).
Proof.
  exists (length h0), (split_heap h0 (segments rest)).
  split; [apply split_path_spec |].
  apply read_parts_split, segments_clean.
Qed.

(** X8.  [split_path] never looks at the first byte of the path: it starts
    at [path + 1], so two paths that differ in their first byte only are
    split alike, and the empty path, which has no byte to skip, is read
    past its terminator. *)
Theorem split_path_first_byte (img : image) (h0 : list object)
    (c1 c2 : byte) (rest : list byte) :
  split_path (c1 :: rest) (State img h0)
  = split_path (c2 :: rest) (State img h0) /\
  split_path [] (State img h0) = Fault.
Proof.
  split; [by rewrite !split_path_spec | reflexivity].
Qed.

(** X9.  Putting the pieces [split_path] returns together again, with a
    ['/'] between two pieces, gives back the string of the path after its
    first byte. *)
Theorem split_path_join (img : image) (h0 : list object) (c : byte)
    (rest : list byte) :
  exists parts h' segs,
    split_path (c :: rest) (State img h0) = Ret (parts, State img h') /\
    read_parts h' parts = Some segs /\
    join segs = cstring rest.
Proof.
  destruct (split_path_parts img h0 c rest) as (parts & h' & Hrun & Hread).
  exists parts, h', (segments rest).
  repeat split; [exact Hrun | exact Hread | apply join_segments].
Qed.

(** X10.  Conversely, [split_path] on ['/'] followed by names joined with
    ['/'] returns exactly those names, provided there is at least one and
    none contains a NUL or a ['/'] (a name may be empty). *)
Theorem split_path_of_join (img : image) (h0 : list object)
    (segs : list (list byte)) :
  segs <> [] ->
  Forall (fun seg => (NUL ∉ seg) /\ (SLASH ∉ seg)) segs ->
  exists parts h',
    split_path (SLASH :: join segs) (State img h0)
    = Ret (parts, State img h') /\
    read_parts h' parts = Some segs.
Proof.
  intros Hne Hclean.
  destruct (split_path_parts img h0 SLASH (join segs))
    as (parts & h' & Hrun & Hread).
  exists parts, h'. split; [exact Hrun |].
  by rewrite Hread, segments_join.
Qed.

Lemma split_path_of_join_witness :
  exists parts h',
    split_path (SLASH :: join [cstr "files"; []; cstr "hello.txt"])
      (State hello_image [])
    = Ret (parts, State hello_image h') /\
    read_parts h' parts = Some [cstr "files"; []; cstr "hello.txt"].
Proof.
  apply (split_path_of_join hello_image []
           [cstr "files"; []; cstr "hello.txt"]).
  - discriminate.
  - repeat (apply Forall_cons; split); try (by apply Forall_nil);
      (split; intros Hin; apply list_elem_of_In in Hin; vm_compute in Hin;
       intuition discriminate).
Defined.

(** X11.  [split_path] returns one piece more than the string after the
    first byte has slashes, every slot of the array it returns points to a
    buffer, and no piece contains a ['/'] or a NUL. *)
Theorem split_path_pieces (img : image) (h0 : list object) (c : byte)
    (rest : list byte) :
  exists parts h' segs,
    split_path (c :: rest) (State img h0) = Ret (parts, State img h') /\
    read_parts h' parts = Some segs /\
    length segs = S (count_slash (cstring rest)) /\
    Forall (fun seg => (NUL ∉ seg) /\ (SLASH ∉ seg)) segs.
Proof.
  destruct (split_path_parts img h0 c rest) as (parts & h' & Hrun & Hread).
  exists parts, h', (segments rest).
  repeat split; [exact Hrun | exact Hread | by rewrite count_slash_segments |].
  apply Forall_and. split; [apply segments_clean | apply segments_no_slash].
Qed.

(** ** Further properties of [get_inode_by_path] *)

Lemma cstring_clean (s : list byte) : NUL ∉ s -> cstring s = s.
Proof.
  induction s as [| c s IH]; intros Hnul; [reflexivity |].
  apply not_elem_of_cons in Hnul as [Hc Hnul]. rewrite cstring_cons.
  assert (Byte.eqb c NUL = false) as -> by (apply byte_eqb_false; congruence).
  by rewrite IH.
Qed.

Lemma cstring_app_clean (pre t : list byte) :
  NUL ∉ pre -> cstring (pre ++ t) = pre ++ cstring t.
Proof.
  induction pre as [| c pre IH]; intros Hnul; [reflexivity |].
  apply not_elem_of_cons in Hnul as [Hc Hnul]. cbn [app].
  rewrite cstring_cons.
  assert (Byte.eqb c NUL = false) as -> by (apply byte_eqb_false; congruence).
  by rewrite IH.
Qed.

Lemma count_slash_app (s t : list byte) :
  count_slash (s ++ t) = (count_slash s + count_slash t)%nat.
Proof. unfold count_slash. by rewrite filter_app, length_app. Qed.

Lemma count_slash_none (s : list byte) : SLASH ∉ s -> count_slash s = O.
Proof.
  unfold count_slash. induction s as [| c s IH]; intros Hno; [reflexivity |].
  apply not_elem_of_cons in Hno as [Hc Hs].
  rewrite filter_cons, decide_False by congruence. by apply IH.
Qed.

(** X12.  An empty first component is looked up like any name: on a path
    beginning with two slashes the empty string is searched in the root
    directory, and when the names there are valid the result is 0, whatever
    follows the second slash. *)
Theorem get_inode_by_path_double_slash (img : image) (root : ptr)
    (es : list dirent) (fuel : nat) (rest : list byte) (h0 : list object) :
  get_root_dir img = Ret root ->
  directory img root es ->
  Forall (fun e => valid_name (d_name e)) es ->
  (length es < fuel)%nat ->
  omap fst (get_inode_by_path fuel (SLASH :: SLASH :: rest) (State img h0))
  = Ret 0.
Proof.
  intros Hroot Hdir Hvalid Hfuel.
  rewrite get_inode_by_path_absolute, omap_fst_pair, Hroot. cbn [obind].
  change (segments (SLASH :: rest)) with ([] :: segments rest). cbn [walk].
  rewrite (get_inode_from_dir_spec _ _ _ _ es) by assumption.
  cbn [obind]. by rewrite first_match_empty.
Qed.

Lemma get_inode_by_path_double_slash_witness :
  omap fst (get_inode_by_path 4 (SLASH :: SLASH :: cstr "files/hello.txt")
              (State hello_image [])) = Ret 0.
Proof.
  apply (get_inode_by_path_double_slash hello_image root_inode hello_root).
  - reflexivity.
  - apply hello_root_directory.
  - apply valid_hello_root.
  - simpl. lia.
Defined.

(** X13.  Resolution stops at the first component that is not found: when
    the first component begins with no name of the root directory the
    result is 0 whatever the rest of the path is, and nothing is asked of
    any other directory of the image. *)
Theorem get_inode_by_path_stops_at_miss (img : image) (root : ptr)
    (es : list dirent) (fuel : nat) (name rest : list byte)
    (h0 : list object) :
  get_root_dir img = Ret root ->
  directory img root es ->
  NUL ∉ name -> SLASH ∉ name ->
  Forall (fun e => (NUL ∉ d_name e) /\ ~ d_name e `prefix_of` name) es ->
  (length es < fuel)%nat ->
  omap fst (get_inode_by_path fuel (SLASH :: name ++ SLASH :: rest)
              (State img h0)) = Ret 0.
Proof.
  intros Hroot Hdir Hnul Hsl Hno Hfuel.
  rewrite get_inode_by_path_absolute, omap_fst_pair, Hroot. cbn [obind].
  rewrite segments_app, segments_clean_piece by assumption.
  cbn [app walk].
  rewrite (get_inode_from_dir_spec _ _ _ _ es) by assumption.
  cbn [obind]. rewrite first_match_none; [reflexivity |].
  apply no_prefix_no_match. by rewrite cstring_clean.
Qed.

Lemma get_inode_by_path_stops_at_miss_witness :
  omap fst (get_inode_by_path 4 (SLASH :: cstr "nope" ++ SLASH :: cstr "a/b")
              (State hello_image [])) = Ret 0.
Proof.
  apply (get_inode_by_path_stops_at_miss hello_image root_inode hello_root).
  - reflexivity.
  - apply hello_root_directory.
  - intros Hin; apply list_elem_of_In in Hin; vm_compute in Hin;
      intuition discriminate.
  - intros Hin; apply list_elem_of_In in Hin; vm_compute in Hin;
      intuition discriminate.
  - check_no_prefix.
  - simpl. lia.
Defined.

(** X14.  A path that does not begin with a slash but has one is resolved
    with its first byte and its last component dropped: it gives what the
    absolute path made of the bytes between its first byte and its last
    slash gives (so "xfiles/hello.txt" gives what "/files" gives). *)
Theorem get_inode_by_path_relative (fuel : nat) (img : image)
    (h1 h2 : list object) (c : byte) (pre last : list byte) :
  c <> SLASH -> c <> NUL ->
  NUL ∉ pre ->
  SLASH ∉ cstring last ->
  omap fst (get_inode_by_path fuel (c :: pre ++ SLASH :: last) (State img h1))
  = omap fst (get_inode_by_path fuel (SLASH :: pre) (State img h2)).
Proof.
  intros Hc Hc0 Hnul Hlast.
  assert (Hlevels : count_slash (cstring (c :: pre ++ SLASH :: last))
                    = length (segments pre)).
  { rewrite cstring_cons.
    assert (Byte.eqb c NUL = false) as ->
      by (apply byte_eqb_false; congruence).
    rewrite cstring_app_clean by exact Hnul. rewrite cstring_cons.
    change (Byte.eqb SLASH NUL) with false. cbn iota.
    change (c :: pre ++ SLASH :: cstring last)
      with ([c] ++ pre ++ [SLASH] ++ cstring last).
    rewrite !count_slash_app, (count_slash_none (cstring last)) by exact Hlast.
    rewrite (count_slash_none [c])
      by (rewrite not_elem_of_cons; split; [congruence | apply not_elem_of_nil]).
    rewrite <- count_slash_segments, cstring_clean by exact Hnul.
    change (count_slash [SLASH]) with 1%nat. lia. }
  rewrite get_inode_by_path_absolute, omap_fst_pair.
  rewrite get_inode_by_path_result, Hlevels.
  pose proof (segments_nonempty pre) as Hne.
  destruct (Nat.eqb_spec (length (segments pre)) 0) as [H0 | _];
    [by destruct (segments pre) |].
  cbn [tl]. rewrite segments_app by exact Hnul.
  by rewrite take_app_length.
Qed.

Lemma get_inode_by_path_relative_witness :
  omap fst (get_inode_by_path 4 (cstr "xfiles/hello.txt")
              (State hello_image []))
  = omap fst (get_inode_by_path 4 (cstr "/files") (State hello_image [])).
Proof.
  apply (get_inode_by_path_relative 4 hello_image [] [] "x"%byte
           (cstr "files") (cstr "hello.txt")).
  - discriminate.
  - discriminate.
  - intros Hin; apply list_elem_of_In in Hin; vm_compute in Hin;
      intuition discriminate.
  - intros Hin; apply list_elem_of_In in Hin; vm_compute in Hin;
      intuition discriminate.
Defined.

(** X15.  A call never frees or changes an object that was on the heap
    before it: the heap after a call is the heap before it followed by what
    [split_path] allocated, nothing when the path has no slash, else the
    [parts] array and one buffer per piece, which are left behind on every
    return. *)
Theorem get_inode_by_path_heap (fuel : nat) (path : list byte) (img : image)
    (h0 : list object) (r : Z) (s' : state) :
  get_inode_by_path fuel path (State img h0) = Ret (r, s') ->
  exists new : list object,
    st_heap s' = h0 ++ new /\
    length new = if (count_slash (cstring path) =? 0)%nat then O
                 else S (length (segments (tl path))).
Proof.
  destruct (Nat.eqb_spec (count_slash (cstring path)) 0) as [H0 | Hne].
  - rewrite get_inode_by_path_no_slash by exact H0. intros [= _ <-].
    exists []. by rewrite app_nil_r.
  - rewrite get_inode_by_path_spec by exact Hne.
    destruct (let* root := get_root_dir img in _) as [r' | |];
      cbn [omap obind]; [| discriminate | discriminate].
    intros [= _ <-]. cbn [st_heap]. unfold split_heap, with_parts.
    eexists. split; [reflexivity |].
    cbn [length]. by rewrite length_fmap.
Qed.

Lemma get_inode_by_path_heap_witness :
  exists new : list object,
    st_heap (State hello_image
               (split_heap [] [cstr "files"; cstr "hello.txt"])) = [] ++ new /\
    length new = if (count_slash (cstring (cstr "/files/hello.txt")) =? 0)%nat
                 then O
                 else S (length (segments (tl (cstr "/files/hello.txt")))).
Proof.
  apply (get_inode_by_path_heap 4 (cstr "/files/hello.txt") hello_image [] 13).
  vm_compute. reflexivity.
Defined.

(** ** How the operations compose *)

(** X18.  With 1 KiB blocks the superblock [get_super_block] returns is
    block 1 of [get_block] and the descriptor [get_block_group] returns is
    block 2. *)
Theorem superblock_is_block_one (img : image) (g : Z) :
  get_block_size img = Ret 1024 ->
  get_block img 1 = Ret (get_super_block img) /\
  get_block img 2 = Ret (get_block_group img g).
Proof.
  intros Hbs. unfold get_block. rewrite Hbs. cbn [obind].
  unfold get_block_group, get_super_block, SUPERBLOCK_OFFSET, SUPERBLOCK_SIZE.
  split; f_equal; rewrite wrap32_small by lia; lia.
Qed.

Lemma superblock_is_block_one_witness :
  get_block hello_image 1 = Ret (get_super_block hello_image) /\
  get_block hello_image 2 = Ret (get_block_group hello_image 0).
Proof.
  apply (superblock_is_block_one hello_image 0). reflexivity.
Defined.

(** [get_inode] reads the superblock and the descriptor only: when it
    returns for one inode number it returns for every one. *)
Lemma get_inode_returns (img : image) (n1 n2 : Z) (a : ptr) :
  get_inode img n1 = Ret a -> exists a', get_inode img n2 = Ret a'.
Proof.
  unfold get_inode.
  destruct (load32 img _) as [idx | |]; cbn [obind]; try discriminate.
  destruct (get_block img idx) as [table | |]; cbn [obind]; try discriminate.
  destruct (EXT2_INODE_SIZE img _) as [isz | |]; cbn [obind];
    try discriminate.
  intros _. eexists. reflexivity.
Qed.

(** The traversal of one more component is the traversal so far followed
    by one lookup in the directory it arrived at. *)
Lemma walk_snoc (img : image) (lookup : ptr -> list byte -> outcome Z)
    (name : list byte) (names : list (list byte)) :
  forall (folders : ptr) (inodeNo : Z),
    names <> [] ->
    walk img lookup (names ++ [name]) folders inodeNo
    = let* r := walk img lookup names folders inodeNo in
      if r =? 0 then Ret 0
      else let* dir := get_inode img r in lookup dir name.
Proof.
  induction names as [| n1 names IH]; intros folders inodeNo Hne; [done |].
  cbn [app walk].
  destruct (lookup folders n1) as [found | |]; cbn [obind]; try reflexivity.
  destruct (Z.eqb_spec found 0) as [| Hfound]; [reflexivity |].
  destruct (get_inode img found) as [folders' | |] eqn:Hino; cbn [obind];
    try reflexivity.
  destruct names as [| n2 names].
  - cbn [app walk obind].
    destruct (Z.eqb_spec found 0) as [| _]; [contradiction |].
    rewrite Hino. cbn [obind].
    destruct (lookup folders' name) as [found' | |]; cbn [obind];
      try reflexivity.
    destruct (Z.eqb_spec found' 0) as [-> | _]; [reflexivity |].
    destruct (get_inode_returns _ _ found' _ Hino) as [a' ->]. reflexivity.
  - by apply IH.
Qed.

(** X19.  Resolution composes: an absolute path followed by ['/'] and one
    more name resolves to what looking that name up, with
    [get_inode_from_dir], in the inode the path resolves to gives, and to 0
    when the path itself resolves to 0. *)
Theorem get_inode_by_path_compose (fuel : nat) (img : image)
    (h1 h2 : list object) (pre name : list byte) :
  NUL ∉ pre -> NUL ∉ name -> SLASH ∉ name ->
  omap fst (get_inode_by_path fuel (SLASH :: pre ++ SLASH :: name)
              (State img h1))
  = let* r := omap fst (get_inode_by_path fuel (SLASH :: pre)
                          (State img h2)) in
    if r =? 0 then Ret 0
    else let* dir := get_inode img r in
         get_inode_from_dir fuel img dir name.
Proof.
  intros Hpre Hnul Hsl.
  rewrite !get_inode_by_path_absolute, !omap_fst_pair.
  rewrite segments_app, (segments_clean_piece name) by assumption.
  destruct (get_root_dir img) as [root | |]; cbn [obind]; try reflexivity.
  apply walk_snoc, segments_nonempty.
Qed.

Lemma get_inode_by_path_compose_witness :
  omap fst (get_inode_by_path 4 (SLASH :: cstr "files" ++ SLASH :: cstr "hello.txt")
              (State hello_image []))
  = let* r := omap fst (get_inode_by_path 4 (SLASH :: cstr "files")
                          (State hello_image [])) in
    if r =? 0 then Ret 0
    else let* dir := get_inode hello_image r in
         get_inode_from_dir 4 hello_image dir (cstr "hello.txt").
Proof.
  apply (get_inode_by_path_compose 4 hello_image [] [] (cstr "files")
           (cstr "hello.txt"));
    intros Hin; apply list_elem_of_In in Hin; vm_compute in Hin;
    intuition discriminate.
Defined.

(** X20.  A trailing slash turns a path that resolves to a directory into
    NotFound: the empty string is looked up in that directory, and with
    valid names there the result is 0. *)
Theorem get_inode_by_path_trailing_slash (fuel : nat) (img : image)
    (h1 h2 : list object) (pre : list byte) (r : Z) (dir : ptr)
    (es : list dirent) :
  NUL ∉ pre ->
  omap fst (get_inode_by_path fuel (SLASH :: pre) (State img h1)) = Ret r ->
  r <> 0 ->
  get_inode img r = Ret dir ->
  directory img dir es ->
  Forall (fun e => valid_name (d_name e)) es ->
  (length es < fuel)%nat ->
  omap fst (get_inode_by_path fuel (SLASH :: pre ++ [SLASH]) (State img h2))
  = Ret 0.
Proof.
  intros Hpre Hrun Hr Hino Hdir Hvalid Hfuel.
  rewrite get_inode_by_path_absolute, omap_fst_pair in *.
  rewrite segments_app by exact Hpre. change (segments []) with [[] : list byte].
  destruct (get_root_dir img) as [root | |]; cbn [obind] in *;
    try discriminate.
  rewrite walk_snoc by apply segments_nonempty.
  rewrite Hrun. cbn [obind].
  destruct (Z.eqb_spec r 0) as [| _]; [contradiction |].
  rewrite Hino. cbn [obind].
  rewrite (get_inode_from_dir_spec _ _ _ _ es) by assumption.
  by rewrite first_match_empty.
Qed.

Lemma get_inode_by_path_trailing_slash_witness :
  omap fst (get_inode_by_path 4 (SLASH :: cstr "files" ++ [SLASH])
              (State hello_image [])) = Ret 0.
Proof.
  apply (get_inode_by_path_trailing_slash 4 hello_image [] [] (cstr "files")
           12 sub_inode hello_files).
  - intros Hin; apply list_elem_of_In in Hin; vm_compute in Hin;
      intuition discriminate.
  - vm_compute. reflexivity.
  - discriminate.
  - reflexivity.
  - apply hello_files_directory.
  - check_names.
  - simpl. lia.
Defined.

(** ** The bare root path on a fully packed root block *)

